(** * intlist: a notation for lists of integers

    A shallow embedding of the Go package [intlist] (functions [NewIterator],
    [Next], [Err] and [Parse]) together with the parts of the Go standard
    library it calls ([strings.Split] and [strconv.Atoi]), and the
    properties of the package stated over that embedding.

    Conventions.
    - Go's [int] is the 64-bit two's complement integer ([strconv.IntSize]
      is 64); a value is a [Z] and every arithmetic operation of the source
      is followed by its wrap-around, written out.
    - A Go string is a sequence of bytes: a [string] of [ascii] characters.
    - A Go slice is either [nil] or a sequence of elements.
    - [*Iterator] is the only reference to its state, so the methods are
      state transformers: they return the state they leave behind, also when
      they panic. *)

From Stdlib Require Import ZArith List String Ascii Bool Lia Arith.
Import ListNotations.

#[local] Open Scope string_scope.
#[local] Open Scope Z_scope.

(** ** Machine integers *)

Definition intSize : Z := 64.

Definition minInt : Z := - 2 ^ (intSize - 1).
Definition maxInt : Z := 2 ^ (intSize - 1) - 1.
Definition maxUint64 : Z := 2 ^ 64 - 1.

(** Conversion of a mathematical integer to Go's [int]: two's complement
    wrap-around. *)
Definition wrap_int (x : Z) : Z :=
  (x + 2 ^ (intSize - 1)) mod 2 ^ intSize - 2 ^ (intSize - 1).

(** Arithmetic on [byte] and [uint64] wraps as well. *)
Definition wrap_byte (x : Z) : Z := x mod 256.
Definition wrap_uint64 (x : Z) : Z := x mod 2 ^ 64.

Definition in_int (x : Z) : Prop := minInt <= x <= maxInt.

Definition byte_of (c : ascii) : Z := Z.of_N (N_of_ascii c).

(** ** Slices *)

Inductive slice (A : Type) : Type :=
| nil_slice : slice A
| mk_slice : list A -> slice A.

Arguments nil_slice {A}.
Arguments mk_slice {A} _.

(** The elements of a slice; [nil] has none. *)
Definition elems {A} (s : slice A) : list A :=
  match s with
  | nil_slice => []
  | mk_slice l => l
  end.

Definition len {A} (s : slice A) : nat := List.length (elems s).

(** [append(s, x)]: the result is never [nil]. *)
Definition append {A} (s : slice A) (x : A) : slice A :=
  mk_slice (elems s ++ [x]).

(** ** strings.Split *)

Module Strings.

(** [HasPrefix s prefix]. *)
Fixpoint HasPrefix (s prefix : string) : bool :=
  match prefix, s with
  | EmptyString, _ => true
  | String _ _, EmptyString => false
  | String a p', String b s' => Ascii.eqb a b && HasPrefix s' p'
  end.

Fixpoint drop (n : nat) (s : string) : string :=
  match n, s with
  | O, _ => s
  | S n', String _ s' => drop n' s'
  | S _, EmptyString => EmptyString
  end.

(** [cut s sep]: with [m := Index(s, sep)] the first position at which
    [sep] occurs in [s], the pair [(s[:m], s[m+len(sep):])]; [None] when
    [sep] does not occur ([m < 0]). *)
Fixpoint cut (s sep : string) : option (string * string) :=
  if HasPrefix s sep then Some (EmptyString, drop (String.length sep) s)
  else
    match s with
    | EmptyString => None
    | String c s' =>
        match cut s' sep with
        | Some (a, rest) => Some (String c a, rest)
        | None => None
        end
    end.

(** The loop of [genSplit],
<<
    for i < n {
        m := Index(s, sep)
        if m < 0 { break }
        a[i] = s[:m]
        s = s[m+len(sep):]
        i++
    }
    a[i] = s
>>
    at most [n] more separators are looked for, and the rest of the
    text is the last piece. *)
Fixpoint genSplit (n : nat) (s sep : string) : list string :=
  match n with
  | O => [s]
  | S n' =>
      match cut s sep with
      | None => [s]
      | Some (a, rest) => a :: genSplit n' rest sep
      end
  end.

(** [strings.Split(s, sep)] for a non-empty separator: all the pieces of
    [s] between the non-overlapping occurrences of [sep], found from left
    to right.  Go runs the loop [Count(s, sep)] times, the number of such
    occurrences; there are at most [len(s)] of them and the loop leaves
    as soon as [Index] finds none, so [len(s)] is the bound used here.
    (The package calls [Split] with the separators [","] and ["..."]
    only; Go's treatment of the empty separator is not part of this
    development.) *)
Definition Split (s sep : string) : list string :=
  genSplit (String.length s) s sep.

End Strings.

(** ** strconv *)

Module Strconv.

(** The two sentinel errors [strconv.ErrSyntax] and [strconv.ErrRange]. *)
Inductive sentinel : Type := ErrSyntax | ErrRange.

(** [strconv.NumError]. *)
Record NumError : Type := mkNumError {
  Func : string;
  Num : string;
  Err : sentinel
}.

Definition syntaxError (fn str : string) : NumError := mkNumError fn str ErrSyntax.

Definition is_sign (c : ascii) : bool :=
  (Ascii.eqb c "-" || Ascii.eqb c "+")%char.

(** The digit loop on the fast path of [Atoi]:
    [ch -= '0'; if ch > 9 { syntax error }; n = n*10 + int(ch)]. *)
Fixpoint atoi_fast (s : string) (n : Z) : option Z :=
  match s with
  | EmptyString => Some n
  | String c s' =>
      let ch := wrap_byte (byte_of c - 48) in
      if 9 <? ch then None
      else atoi_fast s' (wrap_int (n * 10 + ch))
  end.

(** [lower(c)]: [c | ('x' - 'X')]. *)
Definition lower (c : Z) : Z := Z.lor c 32.

(** The result of the digit loop of [ParseUint]. *)
Inductive uint_result : Type :=
| UOk (n : Z)
| USyntax
| URange.

(** The digit loop of [ParseUint] for base 10 and bit size 64, from the
    accumulator [n]:
<<
    for _, c := range []byte(s) {
        var d byte
        switch {
        case '0' <= c && c <= '9':
            d = c - '0'
        case 'a' <= lower(c) && lower(c) <= 'z':
            d = lower(c) - 'a' + 10
        default:
            return 0, syntaxError(fnParseUint, s0)
        }
        if d >= byte(base) {
            return 0, syntaxError(fnParseUint, s0)
        }
        if n >= cutoff {            // n*base overflows
            return maxVal, rangeError(fnParseUint, s0)
        }
        n *= uint64(base)
        n1 := n + uint64(d)
        if n1 < n || n1 > maxVal {  // n+d overflows
            return maxVal, rangeError(fnParseUint, s0)
        }
        n = n1
    }
>>
    with [cutoff = maxUint64/10 + 1] and [maxVal = 1<<64 - 1].  (The
    case of the underscore applies to base 0 only.)  The range error is
    returned as soon as the digits read overflow, before the characters
    that follow are looked at. *)
Fixpoint parseUint_loop (s : string) (n : Z) : uint_result :=
  match s with
  | EmptyString => UOk n
  | String ch s' =>
      let c := byte_of ch in
      let d :=
        if (48 <=? c) && (c <=? 57) then Some (wrap_byte (c - 48))
        else if (97 <=? lower c) && (lower c <=? 122)
             then Some (wrap_byte (lower c - 97 + 10))
             else None in
      match d with
      | None => USyntax
      | Some d =>
          if 10 <=? d then USyntax
          else if maxUint64 / 10 + 1 <=? n then URange
          else
            let n := wrap_uint64 (n * 10) in
            let n1 := wrap_uint64 (n + d) in
            if (n1 <? n) || (maxUint64 <? n1) then URange
            else parseUint_loop s' n1
      end
  end.

(** [ParseUint(s, 10, 0)]: the value and the kind of error, if any. *)
Definition ParseUint (s : string) : Z * option sentinel :=
  match s with
  | EmptyString => (0, Some ErrSyntax)
  | _ =>
      match parseUint_loop s 0 with
      | UOk n => (n, None)
      | USyntax => (0, Some ErrSyntax)
      | URange => (maxUint64, Some ErrRange)
      end
  end.

(** [ParseInt(s, 10, 0)]: the value (as an [int64]) and the kind of error,
    if any.  The sign is picked off, the rest goes to [ParseUint], whose
    syntax error is returned at once; otherwise (no error or a range
    error) the unsigned value is checked against [cutoff = 1 << 63]:
<<
    if !neg && un >= cutoff { return int64(cutoff - 1), rangeError(...) }
    if neg && un > cutoff   { return -int64(cutoff), rangeError(...) }
    n := int64(un)
    if neg { n = -n }
    return n, nil
>>
    The error it returns always names the whole of [s]. *)
Definition ParseInt (s : string) : Z * option sentinel :=
  match s with
  | EmptyString => (0, Some ErrSyntax)
  | String c0 s1 =>
      let neg := Ascii.eqb c0 "-"%char in
      let body := if is_sign c0 then s1 else s in
      let '(un, err) := ParseUint body in
      match err with
      | Some ErrSyntax => (0, Some ErrSyntax)
      | _ =>
          let cutoff := 2 ^ (intSize - 1) in
          if negb neg && (cutoff <=? un) then (cutoff - 1, Some ErrRange)
          else if neg && (cutoff <? un) then (- cutoff, Some ErrRange)
          else
            let n := wrap_int un in
            (if neg then wrap_int (- n) else n, None)
      end
  end.

(** [strconv.Atoi]: strings of 1 to 18 bytes take the fast path, all
    others go through [ParseInt], whose error is renamed to [Atoi]. *)
Definition Atoi (s : string) : Z * option NumError :=
  let sLen := Z.of_nat (String.length s) in
  if (0 <? sLen) && (sLen <? 19) then
    (* Fast path for small integers that fit int type. *)
    match s with
    | EmptyString => (0, Some (syntaxError "Atoi" s))
    | String c0 s1 =>
        let body := if is_sign c0 then s1 else s in
        if is_sign c0 && (Z.of_nat (String.length body) <? 1)
        then (0, Some (syntaxError "Atoi" s))
        else
          match atoi_fast body 0 with
          | None => (0, Some (syntaxError "Atoi" s))
          | Some n =>
              (if Ascii.eqb c0 "-"%char then wrap_int (- n) else n, None)
          end
    end
  else
    (* Slow path for invalid, big, or underscored integers. *)
    match ParseInt s with
    | (i64, None) => (wrap_int i64, None)
    | (i64, Some e) => (wrap_int i64, Some (mkNumError "Atoi" s e))
    end.

End Strconv.

(** ** The package *)

(** The values an [error] takes in this package: the sentinel [ErrDone]
    or a [*strconv.NumError]. *)
Inductive error : Type :=
| ErrDone : error
| ErrNum : Strconv.NumError -> error.

(** [e == ErrDone]. *)
Definition is_ErrDone (e : error) : bool :=
  match e with
  | ErrDone => true
  | ErrNum _ => false
  end.

(** [seq] denotes both single integers and sequences of integers. *)
Record seq : Type := mkSeq {
  next : Z;  (* Next value to retrieve *)
  last : Z;  (* Last value in sequence *)
  step : Z   (* Direction *)
}.

(** [Iterator] is the state for generating integers. *)
Record Iterator : Type := mkIterator {
  seqs : slice seq;    (* Remaining sequences to handle *)
  err : option error   (* Error in creating or ErrDone *)
}.

Definition fnNewIterator : string := "NewIterator".

(** The body of the [switch] of [NewIterator] for one item: the
    descriptor built (starting from the zero value of [seq]) and the
    error, if any. *)
Definition parse_item (item : string) : seq * option error :=
  let itemData := mkSeq 0 0 0 in
  match Strings.Split item "..." with
  | [p0] =>
      let '(v, e) := Strconv.Atoi p0 in
      (mkSeq v v (step itemData), option_map ErrNum e)
  | [p0; p1] =>
      match Strconv.Atoi p0 with
      | (v0, Some e) => (mkSeq v0 (last itemData) (step itemData), Some (ErrNum e))
      | (v0, None) =>
          match Strconv.Atoi p1 with
          | (v1, Some e) => (mkSeq v0 v1 (step itemData), Some (ErrNum e))
          | (v1, None) =>
              (mkSeq v0 v1 (if v0 <? v1 then 1 else -1), None)
          end
      end
  | _ =>
      (itemData,
       Some (ErrNum (Strconv.mkNumError fnNewIterator item Strconv.ErrSyntax)))
  end.

(** The [for] loop of [NewIterator] over the items, from the slice [acc]
    built so far. *)
Fixpoint parse_items (items : list string) (acc : slice seq)
  : slice seq * option error :=
  match items with
  | [] => (acc, None)
  | item :: rest =>
      match parse_item item with
      | (_, Some e) => (nil_slice, Some e)
      | (itemData, None) => parse_items rest (append acc itemData)
      end
  end.

Definition NewIterator (spec : string) : Iterator :=
  let items := Strings.Split spec "," in
  match items with
  | [EmptyString] => mkIterator (mk_slice []) None
  | _ =>
      let '(seqs, err) := parse_items items nil_slice in
      mkIterator seqs err
  end.

(** What a call leaves to its caller: the values it returns, or a panic
    with its message. *)
Inductive outcome (A : Type) : Type :=
| Returns : A -> outcome A
| Panics : string -> outcome A.

Arguments Returns {A} _.
Arguments Panics {A} _.

(** [Next]: the outcome and the state of the iterator after the call. *)
Definition Next (i : Iterator) : outcome (Z * option error) * Iterator :=
  match err i with
  | Some e =>
      if is_ErrDone e
      then (Panics "Next() called again after returning ErrDone.", i)
      else (Panics "Next() called on invalid iterator.", i)
  | None =>
      match elems (seqs i) with
      | [] => (Returns (0, Some ErrDone), mkIterator (seqs i) (Some ErrDone))
      | item :: rest =>
          let val := next item in
          if val =? last item
          then (Returns (val, None), mkIterator (mk_slice rest) (err i))
          else
            let item' := mkSeq (wrap_int (next item + step item))
                               (last item) (step item) in
            (Returns (val, None), mkIterator (mk_slice (item' :: rest)) (err i))
      end
  end.

(** [Err]: a read of the error slot; the state is returned as it was. *)
Definition Err (i : Iterator) : option error * Iterator := (err i, i).

(** The [for] loop of [Parse].  It has no bound of its own, so the model
    takes the number of iterations it may still run: [None] when that
    number is used up before the loop is left. *)
Fixpoint Parse_loop (fuel : nat) (it : Iterator) (result : slice Z)
  : option (outcome (slice Z * option error)) :=
  match fuel with
  | O => None
  | S fuel' =>
      match Next it with
      | (Panics msg, _) => Some (Panics msg)
      | (Returns (val, e), it') =>
          match e with
          | Some ErrDone => Some (Returns (result, None))
          | _ => Parse_loop fuel' it' (append result val)
          end
      end
  end.

Definition Parse_fuel (fuel : nat) (spec : string)
  : option (outcome (slice Z * option error)) :=
  let result := mk_slice [] in
  let it := NewIterator spec in
  match fst (Err it) with
  | Some e => Some (Returns (nil_slice, fst (Err it)))
  | None => Parse_loop fuel it result
  end.

(** [Parse spec] ends with the outcome [r]. *)
Definition Parse_ends (spec : string) (r : outcome (slice Z * option error)) : Prop :=
  exists fuel, Parse_fuel fuel spec = Some r.

(** [Parse spec] returns the slice [out] and the error [e]. *)
Definition Parse_returns (spec : string) (out : slice Z) (e : option error) : Prop :=
  Parse_ends spec (Returns (out, e)).

(** Repeated calls of [Next]: the outcomes of [n] calls made one after the
    other and the state after the last one. *)
Fixpoint Next_calls (n : nat) (it : Iterator)
  : list (outcome (Z * option error)) * Iterator :=
  match n with
  | O => ([], it)
  | S n' =>
      let '(o, it') := Next it in
      let '(os, it'') := Next_calls n' it' in
      (o :: os, it'')
  end.

(** A caller's use of an iterator: any sequence of calls of its two
    methods (a panic of [Next] may be recovered from, as the tests of the
    package do). *)
Inductive call : Type := CallNext | CallErr.

Definition do_call (it : Iterator) (c : call) : Iterator :=
  match c with
  | CallNext => snd (Next it)
  | CallErr => snd (Err it)
  end.

Definition do_calls (cs : list call) (it : Iterator) : Iterator :=
  fold_left do_call cs it.

(** The three states of the iterator, read off its error slot. *)
Inductive phase : Type := Ready | Invalid | Done.

Definition phase_of (it : Iterator) : phase :=
  match err it with
  | None => Ready
  | Some ErrDone => Done
  | Some (ErrNum _) => Invalid
  end.

(** ** The notation, as the documentation describes it *)

Definition is_digit (c : ascii) : bool :=
  (48 <=? byte_of c) && (byte_of c <=? 57).

Fixpoint all_digits (s : string) : bool :=
  match s with
  | EmptyString => true
  | String c s' => is_digit c && all_digits s'
  end.

(** The number a string of decimal digits denotes. *)
Fixpoint digits_value (s : string) : Z :=
  match s with
  | EmptyString => 0
  | String c s' =>
      (byte_of c - 48) * 10 ^ Z.of_nat (String.length s') + digits_value s'
  end.

(** A string without its sign, if it has one. *)
Definition unsigned_part (s : string) : string :=
  match s with
  | String c s' => if Strconv.is_sign c then s' else s
  | EmptyString => EmptyString
  end.

Definition negative (s : string) : bool :=
  match s with
  | String c _ => Ascii.eqb c "-"%char
  | EmptyString => false
  end.

(** The integer a literal denotes: an optional sign followed by one or
    more decimal digits; [None] for any other string. *)
Definition literal (s : string) : option Z :=
  let body := unsigned_part s in
  match body with
  | EmptyString => None
  | String _ _ =>
      if all_digits body
      then Some (if negative s then - digits_value body else digits_value body)
      else None
  end.

(** The longest prefix of a string made of digits. *)
Fixpoint digit_prefix (s : string) : string :=
  match s with
  | EmptyString => EmptyString
  | String c s' => if is_digit c then String c (digit_prefix s') else EmptyString
  end.

(** What is wrong with a string offered as an integer, if anything: a
    literal is at fault when its value is out of the range of [int]; a
    string that is no literal is a syntax error, unless its leading digits
    alone already exceed 64 bits, which is reported as a range error. *)
Definition literal_fault (s : string) : option Strconv.sentinel :=
  match literal s with
  | Some v =>
      if (minInt <=? v) && (v <=? maxInt) then None else Some Strconv.ErrRange
  | None =>
      if 2 ^ 64 <=? digits_value (digit_prefix (unsigned_part s))
      then Some Strconv.ErrRange
      else Some Strconv.ErrSyntax
  end.

(** The inclusive run of consecutive integers from [a] to [b]:
    [a, a+1, ..., b] when [a <= b] and [a, a-1, ..., b] when [a > b]. *)
Definition run (a b : Z) : list Z :=
  if a <=? b
  then map (fun k => a + Z.of_nat k) (List.seq 0 (Z.to_nat (b - a + 1)))
  else map (fun k => a - Z.of_nat k) (List.seq 0 (Z.to_nat (a - b + 1))).

(** The integers a descriptor still stands for. *)
Definition pending (d : seq) : list Z := run (next d) (last d).

(** An item of a specification: a single integer or a range, each
    integer given by its text. *)
Inductive item : Type :=
| Single (p : string)
| Range (p q : string).

Definition item_text (i : item) : string :=
  match i with
  | Single p => p
  | Range p q => p ++ "..." ++ q
  end.

(** [strings.Join] *)
Fixpoint Join (elems : list string) (sep : string) : string :=
  match elems with
  | [] => EmptyString
  | [a] => a
  | a :: rest => a ++ sep ++ Join rest sep
  end.

(** The text of a specification made of the given items. *)
Definition spec_text (items : list item) : string :=
  Join (map item_text items) ",".

(** An integer text is well formed when it is a literal whose value fits
    [int]. *)
Definition int_text (p : string) (v : Z) : Prop :=
  literal p = Some v /\ in_int v.

(** An item denotes its integers: a single integer itself, a range the
    run between its two ends. *)
Inductive item_denotes : item -> list Z -> Prop :=
| denotes_single p v :
    int_text p v -> item_denotes (Single p) [v]
| denotes_range p q a b :
    int_text p a -> int_text q b -> item_denotes (Range p q) (run a b).

(** A descriptor as the constructor builds it for an item. *)
Inductive item_seq : item -> seq -> Prop :=
| seq_single p v :
    int_text p v -> item_seq (Single p) (mkSeq v v 0)
| seq_range p q a b :
    int_text p a -> int_text q b ->
    item_seq (Range p q) (mkSeq a b (if a <? b then 1 else -1)).

(** A descriptor an iterator may hold: [next] has not passed [last], and
    [step] points from [next] to [last]; a descriptor with no direction is
    a single integer. *)
Definition seq_ok (d : seq) : Prop :=
  in_int (next d) /\ in_int (last d) /\
  ((step d = 1 /\ next d <= last d) \/
   (step d = -1 /\ last d <= next d) \/
   (step d = 0 /\ next d = last d)).

(** No character of [s] is [c]. *)
Fixpoint free_of (c : ascii) (s : string) : bool :=
  match s with
  | EmptyString => true
  | String x s' => negb (Ascii.eqb x c) && free_of c s'
  end.

(** The value of the digits [s] read after the digits that gave [n]. *)
Definition shifted (n : Z) (s : string) : Z :=
  n * 10 ^ Z.of_nat (String.length s) + digits_value s.

(** The values of the calls that succeed. *)
Definition values (vs : list Z) : list (outcome (Z * option error)) :=
  map (fun v => Returns (v, @None error)) vs.

(** The integers all the descriptors of a list stand for. *)
Definition all_pending (ds : list seq) : list Z := flat_map pending ds.

(** The error of one piece of an item offered as an integer: the error
    [Atoi] gives for its fault. *)
Definition piece_error (p : string) : option Strconv.NumError :=
  option_map (Strconv.mkNumError "Atoi" p) (literal_fault p).

(** The error of an item, if it has one: an item with more than one
    range separator is a syntax error of its own; otherwise the error is
    that of its first piece at fault. *)
Definition item_error (t : string) : option Strconv.NumError :=
  match Strings.Split t "..." with
  | [p] => piece_error p
  | [p; q] =>
      match piece_error p with
      | Some e => Some e
      | None => piece_error q
      end
  | _ => Some (Strconv.mkNumError fnNewIterator t Strconv.ErrSyntax)
  end.

(** The number of integers a descriptor stands for: one for a single
    integer, and for a range the distance between its ends plus one. *)
Definition seq_length (d : seq) : nat :=
  S (Z.to_nat (Z.abs (last d - next d))).

(** The characters a specification is written with: digits, the two
    signs, the comma and the dot. *)
Definition spec_char (c : ascii) : bool :=
  is_digit c || Strconv.is_sign c || Ascii.eqb c "," || Ascii.eqb c ".".

(** Every character of [s] satisfies [f]. *)
Fixpoint all_chars (f : ascii -> bool) (s : string) : bool :=
  match s with
  | EmptyString => true
  | String c s' => f c && all_chars f s'
  end.

(** The table of [TestParse]: a specification, and the sequence or the
    kind of error expected of [Parse]. *)
Definition parseTests : list (string * (list Z + Strconv.sentinel)) :=
  [ ("1234", inl [1234]);
    ("6...9", inl [6; 7; 8; 9]);
    ("-1...2,6...4", inl [-1; 0; 1; 2; 6; 5; 4]);
    ("", inl []);
    ("1...3,7,5...3,9", inl [1; 2; 3; 7; 5; 4; 3; 9]);
    ("   12, 4, 9...6", inr Strconv.ErrSyntax);
    ("-2...-4...-6,12", inr Strconv.ErrSyntax);
    ("3.5,12", inr Strconv.ErrSyntax);
    ("3.9...5", inr Strconv.ErrSyntax);
    ("2...5.4", inr Strconv.ErrSyntax) ].

(** What [TestParse] checks of one line of its table. *)
Definition test_passes (t : string * (list Z + Strconv.sentinel)) : Prop :=
  match snd t with
  | inl out => Parse_returns (fst t) (mk_slice out) None
  | inr kind =>
      exists ne, Parse_returns (fst t) nil_slice (Some (ErrNum ne)) /\
                 Strconv.Err ne = kind
  end.

(** Comparisons that linear arithmetic settles. *)
Ltac cmp_lia :=
  repeat match goal with
  | |- context [?a <=? ?b] =>
      first [ replace (a <=? b) with true by (symmetry; apply Z.leb_le; lia)
            | replace (a <=? b) with false by (symmetry; apply Z.leb_gt; lia) ]
  | |- context [?a <? ?b] =>
      first [ replace (a <? b) with true by (symmetry; apply Z.ltb_lt; lia)
            | replace (a <? b) with false by (symmetry; apply Z.ltb_ge; lia) ]
  end.

(** * Properties *)

(** ** Machine integers *)

Lemma wrap_int_id (x : Z) : in_int x -> wrap_int x = x.
Proof.
  unfold in_int, wrap_int, minInt, maxInt, intSize; simpl.
  intros H. rewrite Z.mod_small; lia.
Qed.

Lemma byte_of_range (c : ascii) : 0 <= byte_of c < 256.
Proof.
  unfold byte_of.
  pose proof (N_ascii_bounded c) as H. lia.
Qed.

(** ** Splitting and joining *)

Section SplitFacts.

Import Strings.

Lemma HasPrefix_app (s p : string) :
  HasPrefix s p = true -> s = p ++ drop (String.length p) s.
Proof.
  revert s; induction p as [|a p IH]; intros s H; simpl in *.
  - reflexivity.
  - destruct s as [|b s]; [discriminate|].
    apply andb_true_iff in H as [Hab Hp].
    apply Ascii.eqb_eq in Hab; subst b.
    simpl. f_equal. now apply IH.
Qed.

Lemma HasPrefix_app_l (p r : string) : HasPrefix (p ++ r) p = true.
Proof.
  induction p as [|a p IH]; simpl; [now destruct r|].
  now rewrite Ascii.eqb_refl, IH.
Qed.

Lemma drop_app_l (p r : string) : drop (String.length p) (p ++ r) = r.
Proof.
  induction p as [|a p IH]; simpl; [now destruct r | exact IH].
Qed.

Lemma str_length_app (a b : string) :
  String.length (a ++ b) = (String.length a + String.length b)%nat.
Proof.
  induction a as [|c a IH]; simpl; [reflexivity | now rewrite IH].
Qed.

Lemma cut_eq (s sep : string) :
  cut s sep =
  if HasPrefix s sep then Some (EmptyString, drop (String.length sep) s)
  else
    match s with
    | EmptyString => None
    | String c s' =>
        match cut s' sep with
        | Some (a, rest) => Some (String c a, rest)
        | None => None
        end
    end.
Proof. destruct s; reflexivity. Qed.

(** A separator found by [cut] is where [cut] says it is. *)
Lemma cut_Some (s sep a rest : string) :
  cut s sep = Some (a, rest) -> s = a ++ sep ++ rest.
Proof.
  revert a rest; induction s as [|c s IH]; intros a rest; rewrite cut_eq.
  - destruct (HasPrefix "" sep) eqn:Hp; [|discriminate].
    intros [= <- <-]. now apply HasPrefix_app in Hp.
  - destruct (HasPrefix (String c s) sep) eqn:Hp.
    + intros [= <- <-]. now apply HasPrefix_app in Hp.
    + destruct (cut s sep) as [[a' r']|] eqn:Hc; [|discriminate].
      intros [= <- <-]. simpl. f_equal. now apply IH.
Qed.

Lemma cut_shorter (s sep a rest : string) :
  sep <> "" -> cut s sep = Some (a, rest) ->
  (String.length rest < String.length s)%nat.
Proof.
  intros Hsep H. apply cut_Some in H. subst s.
  rewrite !str_length_app. destruct sep; [contradiction|simpl; lia].
Qed.

(** The first separator of a text is found after a piece free of the
    separator's first character. *)
Lemma cut_free (c : ascii) (sep' a rest : string) :
  free_of c a = true ->
  cut (a ++ String c sep' ++ rest) (String c sep') = Some (a, rest).
Proof.
  intros Hfree. induction a as [|x a IH].
  - change ("" ++ String c sep' ++ rest) with (String c sep' ++ rest).
    rewrite cut_eq. now rewrite HasPrefix_app_l, drop_app_l.
  - simpl in Hfree. apply andb_true_iff in Hfree as [Hx Hfree].
    change (String x a ++ String c sep' ++ rest)
      with (String x (a ++ String c sep' ++ rest)).
    rewrite cut_eq.
    assert (Hp : HasPrefix (String x (a ++ String c sep' ++ rest)) (String c sep') = false).
    { simpl. rewrite Ascii.eqb_sym. now destruct (Ascii.eqb x c). }
    rewrite Hp, (IH Hfree). reflexivity.
Qed.

Lemma cut_none (c : ascii) (sep' s : string) :
  free_of c s = true -> cut s (String c sep') = None.
Proof.
  induction s as [|x s IH]; intros Hfree; simpl in *; [reflexivity|].
  apply andb_true_iff in Hfree as [Hx Hfree].
  rewrite Ascii.eqb_sym. destruct (Ascii.eqb x c); [discriminate|].
  simpl. now rewrite IH.
Qed.

(** Once the bound covers the length of the text it plays no part. *)
Lemma genSplit_enough (sep : string) (n m : nat) (s : string) :
  sep <> "" -> (String.length s <= n)%nat -> (String.length s <= m)%nat ->
  genSplit n s sep = genSplit m s sep.
Proof.
  intros Hsep. revert m s; induction n as [|n IH]; intros m s Hn Hm.
  - destruct s; [|simpl in Hn; lia].
    destruct m; simpl; [reflexivity|].
    destruct sep; [contradiction|reflexivity].
  - destruct m as [|m].
    + destruct s; [|simpl in Hm; lia].
      simpl. destruct sep; [contradiction|reflexivity].
    + simpl. destruct (cut s sep) as [[a rest]|] eqn:Hc; [|reflexivity].
      pose proof (cut_shorter _ _ _ _ Hsep Hc).
      f_equal. apply IH; lia.
Qed.

Lemma Split_cut_Some (s sep a rest : string) :
  sep <> "" -> cut s sep = Some (a, rest) ->
  Split s sep = a :: Split rest sep.
Proof.
  intros Hsep Hc. unfold Split.
  pose proof (cut_shorter _ _ _ _ Hsep Hc) as Hlt.
  destruct (String.length s) as [|n] eqn:E; [lia|].
  simpl. rewrite Hc. f_equal. apply genSplit_enough; [assumption|lia|lia].
Qed.

Lemma Split_cut_None (s sep : string) :
  cut s sep = None -> Split s sep = [s].
Proof.
  intros Hc. unfold Split. destruct (String.length s); simpl; [reflexivity|].
  now rewrite Hc.
Qed.

Lemma Split_not_nil (s sep : string) : Split s sep <> [].
Proof.
  unfold Split. destruct (String.length s); simpl; [discriminate|].
  destruct (cut s sep) as [[a rest]|]; discriminate.
Qed.

(** Only the empty text splits into the empty piece alone. *)
Lemma Split_single_empty (s sep : string) :
  sep <> "" -> Split s sep = [""] -> s = "".
Proof.
  intros Hsep H.
  destruct (cut s sep) as [[a rest]|] eqn:Hc.
  - rewrite (Split_cut_Some _ _ _ _ Hsep Hc) in H.
    injection H as _ H. now apply Split_not_nil in H.
  - rewrite (Split_cut_None _ _ Hc) in H. now injection H.
Qed.

(** [Join] undoes [Split]. *)
Lemma Join_genSplit (sep : string) (n : nat) (s : string) :
  Join (genSplit n s sep) sep = s.
Proof.
  revert s; induction n as [|n IH]; intros s; simpl; [reflexivity|].
  destruct (cut s sep) as [[a rest]|] eqn:Hc; [|reflexivity].
  specialize (IH rest).
  destruct (genSplit n rest sep) as [|b l] eqn:E.
  - destruct n; simpl in E; [discriminate|].
    destruct (cut rest sep) as [[? ?]|]; discriminate.
  - change (Join (a :: b :: l) sep) with (a ++ sep ++ Join (b :: l) sep).
    rewrite IH. symmetry. now apply cut_Some.
Qed.

Lemma Join_Split (s sep : string) : Join (Split s sep) sep = s.
Proof. apply Join_genSplit. Qed.

(** [Split] undoes [Join] when no piece holds the first character of the
    separator. *)
Lemma Split_Join (c : ascii) (sep' : string) (l : list string) :
  l <> [] -> Forall (fun a => free_of c a = true) l ->
  Split (Join l (String c sep')) (String c sep') = l.
Proof.
  intros Hne Hall. induction Hall as [|a l Ha Hl IH]; [contradiction|].
  destruct l as [|b l].
  - simpl. apply Split_cut_None. now apply cut_none.
  - change (Join (a :: b :: l) (String c sep'))
      with (a ++ String c sep' ++ Join (b :: l) (String c sep')).
    rewrite (Split_cut_Some _ _ a (Join (b :: l) (String c sep'))).
    + f_equal. apply IH. discriminate.
    + discriminate.
    + now apply cut_free.
Qed.

End SplitFacts.

(** ** Reading integers *)

Section AtoiFacts.

Import Strconv.

Lemma is_digit_spec (c : ascii) :
  is_digit c = true <-> 48 <= byte_of c <= 57.
Proof.
  unfold is_digit. rewrite andb_true_iff, !Z.leb_le. tauto.
Qed.

Lemma digit_byte (c : ascii) :
  is_digit c = true ->
  wrap_byte (byte_of c - 48) = byte_of c - 48 /\ 0 <= byte_of c - 48 <= 9.
Proof.
  rewrite is_digit_spec. intros H. unfold wrap_byte.
  rewrite Z.mod_small; lia.
Qed.

Lemma not_digit_byte (c : ascii) :
  is_digit c = false -> 9 < wrap_byte (byte_of c - 48).
Proof.
  intros H. pose proof (byte_of_range c) as Hr. unfold wrap_byte.
  destruct (Z_lt_le_dec (byte_of c) 48) as [Hlo|Hhi].
  - replace (byte_of c - 48) with (byte_of c + 208 + (-1) * 256) by lia.
    rewrite Z.mod_add by lia. rewrite Z.mod_small; lia.
  - assert (57 < byte_of c).
    { destruct (Z_lt_le_dec 57 (byte_of c)); [assumption|].
      assert (is_digit c = true) by (apply is_digit_spec; lia). congruence. }
    rewrite Z.mod_small; lia.
Qed.

Lemma shifted_cons (n : Z) (c : ascii) (s : string) :
  shifted n (String c s) = shifted (n * 10 + (byte_of c - 48)) s.
Proof.
  unfold shifted. simpl String.length. simpl digits_value.
  rewrite Nat2Z.inj_succ, Z.pow_succ_r by lia. ring.
Qed.

Lemma pow10_pos (k : nat) : 1 <= 10 ^ Z.of_nat k.
Proof.
  assert (0 < 10 ^ Z.of_nat k) by (apply Z.pow_pos_nonneg; lia). lia.
Qed.

Lemma digits_value_bounds (s : string) :
  all_digits s = true ->
  0 <= digits_value s < 10 ^ Z.of_nat (String.length s).
Proof.
  induction s as [|c s IH]; simpl all_digits; simpl digits_value; simpl String.length.
  - intros _. simpl. lia.
  - intros H. apply andb_true_iff in H as [Hc Hs].
    apply digit_byte in Hc as [_ Hc]. specialize (IH Hs).
    rewrite Nat2Z.inj_succ, Z.pow_succ_r by lia.
    pose proof (pow10_pos (String.length s)). nia.
Qed.

Lemma all_digits_prefix (s : string) : all_digits (digit_prefix s) = true.
Proof.
  induction s as [|c s IH]; simpl; [reflexivity|].
  destruct (is_digit c) eqn:E; simpl; [now rewrite E|reflexivity].
Qed.

Lemma digit_prefix_all (s : string) :
  all_digits s = true -> digit_prefix s = s.
Proof.
  induction s as [|c s IH]; simpl; [reflexivity|].
  intros H. apply andb_true_iff in H as [Hc Hs].
  now rewrite Hc, IH.
Qed.

Lemma digit_prefix_length (s : string) :
  (String.length (digit_prefix s) <= String.length s)%nat.
Proof.
  induction s as [|c s IH]; simpl; [lia|].
  destruct (is_digit c); simpl; lia.
Qed.

Lemma shifted_ge (n : Z) (s : string) :
  0 <= n -> all_digits s = true -> n <= shifted n s.
Proof.
  intros Hn Hs. unfold shifted.
  pose proof (digits_value_bounds s Hs).
  pose proof (pow10_pos (String.length s)). nia.
Qed.

(** The fast loop of [Atoi] reads a string of digits as its value, as
    long as that value fits [int]. *)
Lemma atoi_fast_digits (s : string) (n : Z) :
  all_digits s = true -> 0 <= n -> shifted n s <= maxInt ->
  atoi_fast s n = Some (shifted n s).
Proof.
  revert n; induction s as [|c s IH]; intros n Hs Hn Hb.
  - simpl. unfold shifted. simpl. f_equal. lia.
  - simpl in Hs. apply andb_true_iff in Hs as [Hc Hs].
    destruct (digit_byte c Hc) as [Hw Hd].
    rewrite shifted_cons in *. simpl. rewrite Hw.
    replace (9 <? byte_of c - 48) with false by (symmetry; apply Z.ltb_ge; lia).
    assert (Hle : n * 10 + (byte_of c - 48) <= maxInt).
    { etransitivity; [|exact Hb]. apply shifted_ge; [lia|assumption]. }
    rewrite wrap_int_id.
    + apply IH; [assumption|lia|assumption].
    + unfold in_int, minInt, intSize in *. simpl in *. lia.
Qed.

Lemma atoi_fast_not_digits (s : string) (n : Z) :
  all_digits s = false -> atoi_fast s n = None.
Proof.
  revert n; induction s as [|c s IH]; intros n Hs; [discriminate|].
  simpl in *. destruct (is_digit c) eqn:Hc; simpl in Hs.
  - destruct (9 <? wrap_byte (byte_of c - 48)); [reflexivity|]. now apply IH.
  - apply not_digit_byte in Hc. apply Z.ltb_lt in Hc. now rewrite Hc.
Qed.

(** The loop of [ParseUint]: a range error as soon as the digits read so
    far exceed 64 bits, a syntax error at the first character that is no
    digit, and the value of the digits otherwise. *)
Lemma parseUint_loop_spec (s : string) (n : Z) :
  0 <= n <= maxUint64 ->
  parseUint_loop s n =
  if 2 ^ 64 <=? shifted n (digit_prefix s) then URange
  else if all_digits s then UOk (shifted n s) else USyntax.
Proof.
  revert n; induction s as [|ch s IH]; intros n Hn.
  - unfold shifted, maxUint64 in *. simpl digit_prefix. simpl all_digits.
    simpl String.length. simpl digits_value. simpl parseUint_loop.
    change (2 ^ 64) with 18446744073709551616 in *.
    change (10 ^ Z.of_nat 0) with 1.
    replace (18446744073709551616 <=? n * 1 + 0) with false
      by (symmetry; apply Z.leb_gt; lia).
    f_equal. lia.
  - pose proof (byte_of_range ch) as Hr.
    simpl parseUint_loop. simpl digit_prefix. simpl all_digits.
    destruct (is_digit ch) eqn:Hc.
    + unfold is_digit in Hc. rewrite Hc.
      fold (is_digit ch) in Hc. destruct (digit_byte ch Hc) as [Hw Hd].
      rewrite Hw.
      replace (10 <=? byte_of ch - 48) with false by (symmetry; apply Z.leb_gt; lia).
      rewrite !shifted_cons.
      pose proof (all_digits_prefix s) as Hp.
      unfold maxUint64 in *. change (2 ^ 64) with 18446744073709551616 in *.
      change ((18446744073709551616 - 1) / 10 + 1) with 1844674407370955162.
      destruct (1844674407370955162 <=? n) eqn:Hcut.
      * apply Z.leb_le in Hcut.
        assert (18446744073709551616 <= shifted (n * 10 + (byte_of ch - 48)) (digit_prefix s)).
        { etransitivity; [|apply shifted_ge; [lia|assumption]]. lia. }
        replace (18446744073709551616 <=? shifted (n * 10 + (byte_of ch - 48)) (digit_prefix s))
          with true by (symmetry; apply Z.leb_le; assumption).
        reflexivity.
      * apply Z.leb_gt in Hcut. unfold wrap_uint64.
        change (2 ^ 64) with 18446744073709551616.
        rewrite (Z.mod_small (n * 10)) by lia.
        destruct (Z_lt_le_dec (n * 10 + (byte_of ch - 48)) 18446744073709551616) as [Hfit|Hover].
        -- rewrite (Z.mod_small (n * 10 + (byte_of ch - 48))) by lia.
           replace (n * 10 + (byte_of ch - 48) <? n * 10) with false
             by (symmetry; apply Z.ltb_ge; lia).
           replace (18446744073709551616 - 1 <? n * 10 + (byte_of ch - 48)) with false
             by (symmetry; apply Z.ltb_ge; lia).
           simpl orb. cbv iota. rewrite IH by lia. reflexivity.
        -- replace (n * 10 + (byte_of ch - 48))
             with (n * 10 + (byte_of ch - 48) - 18446744073709551616 + 1 * 18446744073709551616) at 1 by lia.
           rewrite Z.mod_add by lia. rewrite Z.mod_small by lia.
           replace (n * 10 + (byte_of ch - 48) - 18446744073709551616 <? n * 10) with true
             by (symmetry; apply Z.ltb_lt; lia).
           simpl orb. cbv iota.
           assert (18446744073709551616 <= shifted (n * 10 + (byte_of ch - 48)) (digit_prefix s)).
           { etransitivity; [|apply shifted_ge; [lia|assumption]]. lia. }
           replace (18446744073709551616 <=? shifted (n * 10 + (byte_of ch - 48)) (digit_prefix s))
             with true by (symmetry; apply Z.leb_le; assumption).
           reflexivity.
    + pose proof Hc as Hc'. unfold is_digit in Hc'. rewrite Hc'.
      simpl andb. cbv iota.
      unfold shifted at 1. simpl String.length. simpl digits_value.
      unfold maxUint64 in Hn. change (2 ^ 64) with 18446744073709551616 in *.
      replace (18446744073709551616 <=? n * 10 ^ Z.of_nat 0 + 0) with false
        by (symmetry; apply Z.leb_gt; simpl; lia).
      destruct ((97 <=? lower (byte_of ch)) && (lower (byte_of ch) <=? 122)) eqn:Hl;
        [|reflexivity].
      apply andb_true_iff in Hl as [Hl1 Hl2].
      apply Z.leb_le in Hl1, Hl2. unfold wrap_byte.
      rewrite Z.mod_small by lia.
      replace (10 <=? lower (byte_of ch) - 97 + 10) with true
        by (symmetry; apply Z.leb_le; lia).
      reflexivity.
Qed.

Lemma shifted_0 (s : string) : shifted 0 s = digits_value s.
Proof. unfold shifted. lia. Qed.

Lemma ParseUint_spec (s : string) :
  s <> "" ->
  ParseUint s =
  if 2 ^ 64 <=? digits_value (digit_prefix s) then (maxUint64, Some ErrRange)
  else if all_digits s then (digits_value s, None) else (0, Some ErrSyntax).
Proof.
  intros Hne. destruct s as [|c s]; [contradiction|].
  unfold ParseUint. rewrite parseUint_loop_spec by (unfold maxUint64; simpl; lia).
  rewrite !shifted_0.
  destruct (2 ^ 64 <=? digits_value (digit_prefix (String c s))); [reflexivity|].
  destruct (all_digits (String c s)); reflexivity.
Qed.

Lemma literal_cons (c : ascii) (s : string) :
  literal (String c s) =
  let body := if is_sign c then s else String c s in
  match body with
  | EmptyString => None
  | String _ _ =>
      if all_digits body
      then Some (if Ascii.eqb c "-"%char then - digits_value body else digits_value body)
      else None
  end.
Proof. reflexivity. Qed.

(** [ParseInt] reports exactly the fault of its argument. *)
Lemma ParseInt_fault (s : string) : snd (ParseInt s) = literal_fault s.
Proof.
  destruct s as [|c0 s1]; [reflexivity|].
  unfold ParseInt, literal_fault. rewrite literal_cons.
  simpl unsigned_part. cbv zeta.
  destruct (if is_sign c0 then s1 else String c0 s1) as [|b body'] eqn:Hbody.
  - reflexivity.
  - cbv iota.
    assert (Hne : String b body' <> "") by discriminate.
    remember (String b body') as body eqn:Eb. clear Eb b body'.
    rewrite ParseUint_spec by assumption.
    unfold maxUint64, minInt, maxInt, intSize.
    change (2 ^ (64 - 1)) with 9223372036854775808.
    change (2 ^ 64) with 18446744073709551616.
    destruct (18446744073709551616 <=? digits_value (digit_prefix body)) eqn:Hover.
    + apply Z.leb_le in Hover.
      transitivity (Some ErrRange); [destruct (c0 =? "-")%char; reflexivity|].
      destruct (all_digits body) eqn:Hall; [|reflexivity].
      rewrite (digit_prefix_all _ Hall) in Hover.
      destruct (c0 =? "-")%char; cmp_lia; reflexivity.
    + apply Z.leb_gt in Hover.
      destruct (all_digits body) eqn:Hall; [|reflexivity].
      rewrite (digit_prefix_all _ Hall) in Hover.
      pose proof (digits_value_bounds _ Hall) as [Hv _].
      destruct (c0 =? "-")%char; simpl negb; simpl andb; cbv iota.
      * destruct (Z.ltb_spec 9223372036854775808 (digits_value body));
          cmp_lia; reflexivity.
      * destruct (Z.leb_spec 9223372036854775808 (digits_value body));
          cmp_lia; reflexivity.
Qed.

(** [ParseInt] returns the value of a literal that fits [int]. *)
Lemma ParseInt_value (s : string) (v : Z) :
  literal s = Some v -> in_int v -> fst (ParseInt s) = v.
Proof.
  destruct s as [|c0 s1]; [discriminate|].
  rewrite literal_cons. unfold ParseInt. cbv zeta.
  destruct (if is_sign c0 then s1 else String c0 s1) as [|b body'] eqn:Hbody;
    [discriminate|].
  assert (Hne : String b body' <> "") by discriminate.
  remember (String b body') as body eqn:Eb. clear Eb b body'.
  destruct (all_digits body) eqn:Hall; [|discriminate].
  intros [= <-]. unfold in_int, minInt, maxInt, intSize.
  change (2 ^ (64 - 1)) with 9223372036854775808. intros Hv.
  pose proof (digits_value_bounds _ Hall) as [Hpos _].
  rewrite ParseUint_spec by assumption.
  rewrite (digit_prefix_all _ Hall), Hall.
  change (2 ^ 64) with 18446744073709551616.
  destruct (c0 =? "-")%char.
  - replace (18446744073709551616 <=? digits_value body) with false
      by (symmetry; apply Z.leb_gt; lia).
    simpl negb. simpl andb. cbv iota.
    replace (9223372036854775808 <? digits_value body) with false
      by (symmetry; apply Z.ltb_ge; lia).
    simpl fst.
    destruct (Z.eq_dec (digits_value body) 9223372036854775808) as [E|E].
    + rewrite E. reflexivity.
    + rewrite (wrap_int_id (digits_value body)), wrap_int_id;
        unfold in_int, minInt, maxInt, intSize; simpl; lia.
  - replace (18446744073709551616 <=? digits_value body) with false
      by (symmetry; apply Z.leb_gt; lia).
    simpl negb. simpl andb.
    replace (9223372036854775808 <=? digits_value body) with false
      by (symmetry; apply Z.leb_gt; lia).
    simpl fst. apply wrap_int_id.
    unfold in_int, minInt, maxInt, intSize; simpl; lia.
Qed.

Lemma pow10_18 (k : nat) : (k <= 18)%nat -> 10 ^ Z.of_nat k <= 10 ^ 18.
Proof. intros H. apply Z.pow_le_mono_r; lia. Qed.

Lemma unsigned_part_length (s : string) :
  (String.length (unsigned_part s) <= String.length s)%nat.
Proof.
  destruct s as [|c s]; simpl; [lia|]. destruct (is_sign c); simpl; lia.
Qed.

(** The error of [Atoi] names [Atoi] and its argument, and its kind is
    the fault of the argument. *)
Lemma Atoi_fault (s : string) :
  snd (Atoi s) = option_map (mkNumError "Atoi" s) (literal_fault s).
Proof.
  unfold Atoi.
  destruct ((0 <? Z.of_nat (String.length s)) && (Z.of_nat (String.length s) <? 19))
    eqn:Hlen.
  - apply andb_true_iff in Hlen as [_ Hlen]. apply Z.ltb_lt in Hlen.
    destruct s as [|c0 s1]; [reflexivity|].
    unfold literal_fault. rewrite literal_cons. simpl unsigned_part. cbv zeta.
    pose proof (unsigned_part_length (String c0 s1)) as Hul.
    simpl unsigned_part in Hul.
    destruct (if is_sign c0 then s1 else String c0 s1) as [|b body'] eqn:Hbody.
    + destruct (is_sign c0); [reflexivity|discriminate].
    + replace (Z.of_nat (String.length (String b body')) <? 1) with false
        by (symmetry; apply Z.ltb_ge; simpl String.length; lia).
      rewrite andb_false_r. cbv iota.
      remember (String b body') as body eqn:Eb. clear Eb b body'.
      destruct (all_digits body) eqn:Hall.
      * pose proof (digits_value_bounds _ Hall) as [Hpos Hlt].
        assert (Hsmall : digits_value body < 10 ^ 18).
        { eapply Z.lt_le_trans; [exact Hlt|]. apply pow10_18. lia. }
        change (10 ^ 18) with 1000000000000000000 in Hsmall.
        rewrite atoi_fast_digits; [|assumption|lia|].
        -- unfold minInt, maxInt, intSize.
           change (2 ^ (64 - 1)) with 9223372036854775808.
           destruct (c0 =? "-")%char; cmp_lia; reflexivity.
        -- rewrite shifted_0. unfold maxInt, intSize. simpl. lia.
      * rewrite atoi_fast_not_digits by assumption.
        pose proof (digits_value_bounds _ (all_digits_prefix body)) as [_ Hlt].
        assert (Hsmall : digits_value (digit_prefix body) < 10 ^ 18).
        { eapply Z.lt_le_trans; [exact Hlt|]. apply pow10_18.
          pose proof (digit_prefix_length body). lia. }
        change (10 ^ 18) with 1000000000000000000 in Hsmall.
        change (2 ^ 64) with 18446744073709551616.
        cmp_lia. reflexivity.
  - pose proof (ParseInt_fault s) as Hf.
    destruct (ParseInt s) as [i64 [e|]]; simpl in Hf; rewrite <- Hf; reflexivity.
Qed.

(** [Atoi] returns the value of a literal that fits [int]. *)
Lemma Atoi_value (s : string) (v : Z) :
  literal s = Some v -> in_int v -> fst (Atoi s) = v.
Proof.
  intros Hlit Hv. unfold Atoi.
  destruct ((0 <? Z.of_nat (String.length s)) && (Z.of_nat (String.length s) <? 19))
    eqn:Hlen.
  - apply andb_true_iff in Hlen as [_ Hlen]. apply Z.ltb_lt in Hlen.
    destruct s as [|c0 s1]; [discriminate|].
    rewrite literal_cons in Hlit. cbv zeta in Hlit.
    pose proof (unsigned_part_length (String c0 s1)) as Hul.
    simpl unsigned_part in Hul.
    destruct (if is_sign c0 then s1 else String c0 s1) as [|b body'] eqn:Hbody;
      [discriminate|].
    replace (Z.of_nat (String.length (String b body')) <? 1) with false
      by (symmetry; apply Z.ltb_ge; simpl String.length; lia).
    rewrite andb_false_r. cbv iota.
    remember (String b body') as body eqn:Eb. clear Eb b body'.
    destruct (all_digits body) eqn:Hall; [|discriminate].
    injection Hlit as <-.
    pose proof (digits_value_bounds _ Hall) as [Hpos Hlt].
    assert (Hsmall : digits_value body < 10 ^ 18).
    { eapply Z.lt_le_trans; [exact Hlt|]. apply pow10_18. lia. }
    change (10 ^ 18) with 1000000000000000000 in Hsmall.
    rewrite atoi_fast_digits; [|assumption|lia|].
    + rewrite shifted_0.
      destruct (c0 =? "-")%char; simpl fst; [|reflexivity].
      apply wrap_int_id. assumption.
    + rewrite shifted_0. unfold maxInt, intSize. simpl. lia.
  - pose proof (ParseInt_value s v Hlit Hv) as Hval.
    destruct (ParseInt s) as [i64 [e|]]; simpl in *; subst i64;
      now apply wrap_int_id.
Qed.

(** [Atoi] succeeds on the literals that fit [int], and on nothing else. *)
Lemma Atoi_ok (s : string) (v : Z) :
  Atoi s = (v, None) <-> int_text s v.
Proof.
  pose proof (Atoi_fault s) as Hf. unfold int_text. split.
  - intros H. rewrite H in Hf. simpl in Hf.
    unfold literal_fault in Hf.
    destruct (literal s) as [w|] eqn:Hlit.
    + destruct ((minInt <=? w) && (w <=? maxInt)) eqn:Hr; [|discriminate].
      apply andb_true_iff in Hr as [H1 H2]. apply Z.leb_le in H1, H2.
      assert (Hw : in_int w) by (split; assumption).
      pose proof (Atoi_value s w Hlit Hw) as Hval.
      rewrite H in Hval. simpl in Hval. subst w. now split.
    + destruct (2 ^ 64 <=? digits_value (digit_prefix (unsigned_part s)));
        discriminate.
  - intros [Hlit Hv].
    pose proof (Atoi_value s v Hlit Hv) as Hval.
    unfold literal_fault in Hf. rewrite Hlit in Hf.
    destruct Hv as [H1 H2].
    apply Z.leb_le in H1, H2. rewrite H1, H2 in Hf. simpl in Hf.
    destruct (Atoi s) as [w e]. simpl in *. now subst.
Qed.

End AtoiFacts.

(** ** Runs of consecutive integers *)

Lemma run_same (a : Z) : run a a = [a].
Proof.
  unfold run. rewrite Z.leb_refl.
  replace (a - a + 1) with 1 by lia. simpl. f_equal. lia.
Qed.

Lemma run_up (a b : Z) : a < b -> run a b = a :: run (a + 1) b.
Proof.
  intros H. unfold run.
  replace (a <=? b) with true by (symmetry; apply Z.leb_le; lia).
  replace (a + 1 <=? b) with true by (symmetry; apply Z.leb_le; lia).
  replace (Z.to_nat (b - a + 1)) with (S (Z.to_nat (b - (a + 1) + 1))) by lia.
  rewrite <- cons_seq, <- seq_shift, map_cons, map_map.
  f_equal; [lia|]. apply map_ext. intros k. lia.
Qed.

Lemma run_down (a b : Z) : b < a -> run a b = a :: run (a - 1) b.
Proof.
  intros H. unfold run.
  replace (a <=? b) with false by (symmetry; apply Z.leb_gt; lia).
  replace (Z.to_nat (a - b + 1)) with (S (Z.to_nat (a - 1 - b + 1))) by lia.
  rewrite <- cons_seq, <- seq_shift, map_cons, map_map.
  destruct (Z.eq_dec (a - 1) b) as [E|E].
  - rewrite E. replace (b <=? b) with true by (symmetry; apply Z.leb_refl).
    replace (b - b + 1) with 1 by lia. simpl. f_equal; [lia|]. f_equal. lia.
  - replace (a - 1 <=? b) with false by (symmetry; apply Z.leb_gt; lia).
    f_equal; [lia|]. apply map_ext. intros k. lia.
Qed.

Lemma run_length (a b : Z) :
  List.length (run a b) = S (Z.to_nat (Z.abs (b - a))).
Proof.
  unfold run. destruct (Z.leb_spec a b);
    rewrite length_map, length_seq; lia.
Qed.

(** ** Advancing an iterator *)

Lemma Next_calls_add (n m : nat) (it : Iterator) :
  Next_calls (n + m) it =
  let '(os, it') := Next_calls n it in
  let '(os', it'') := Next_calls m it' in
  ((os ++ os')%list, it'').
Proof.
  revert it; induction n as [|n IH]; intros it; simpl.
  - now destruct (Next_calls m it).
  - destruct (Next it) as [o it1]. rewrite IH.
    destruct (Next_calls n it1) as [os it2].
    now destruct (Next_calls m it2).
Qed.

Lemma Next_calls_S (n : nat) (it : Iterator) :
  Next_calls (S n) it =
  let '(o, it') := Next it in
  let '(os, it'') := Next_calls n it' in
  (o :: os, it'').
Proof. reflexivity. Qed.

(** One descriptor is used up by as many calls as it has integers
    pending; the calls return these integers in order. *)
Lemma Next_calls_seq (k : nat) :
  forall (d : seq) (rest : list seq),
    seq_ok d -> Z.abs (last d - next d) = Z.of_nat k ->
    Next_calls (S k) (mkIterator (mk_slice (d :: rest)) None) =
    (values (pending d), mkIterator (mk_slice rest) None).
Proof.
  induction k as [|k IH]; intros [n l s] rest (Hn & Hl & Hdir) Hk;
    simpl in Hn, Hl, Hdir, Hk; unfold pending; simpl next; simpl last.
  - assert (n = l) by lia. subst l.
    cbn [Next_calls]. unfold Next. cbn [err seqs elems next last step].
    rewrite Z.eqb_refl. now rewrite run_same.
  - assert (Hne : n <> l) by lia.
    rewrite Next_calls_S. unfold Next at 1. cbn [err seqs elems next last step].
    replace (n =? l) with false by (symmetry; apply Z.eqb_neq; assumption).
    assert (Hs : (s = 1 /\ n < l) \/ (s = -1 /\ l < n)) by lia.
    assert (Hw : wrap_int (n + s) = n + s).
    { apply wrap_int_id. unfold in_int in *. lia. }
    rewrite Hw.
    rewrite (IH (mkSeq (n + s) l s) rest).
    + unfold pending. simpl next. simpl last.
      destruct Hs as [[-> Hlt]|[-> Hlt]].
      * now rewrite (run_up n l Hlt).
      * rewrite (run_down n l Hlt). reflexivity.
    + unfold seq_ok, in_int in *. simpl. lia.
    + simpl. lia.
Qed.

Lemma values_app (a b : list Z) :
  values (a ++ b) = (values a ++ values b)%list.
Proof. apply map_app. Qed.

(** All the descriptors are used up in order, one call per integer. *)
Lemma Next_calls_all (ds : list seq) :
  Forall seq_ok ds ->
  Next_calls (List.length (all_pending ds)) (mkIterator (mk_slice ds) None) =
  (values (all_pending ds), mkIterator (mk_slice []) None).
Proof.
  induction 1 as [|d ds Hd Hds IH]; [reflexivity|].
  unfold all_pending in *. simpl flat_map.
  rewrite length_app, Next_calls_add.
  unfold pending at 1. rewrite run_length.
  rewrite (Next_calls_seq _ d ds Hd) by lia.
  rewrite IH. now rewrite values_app.
Qed.

(** The call after the last integer signals completion. *)
Lemma Next_done (s : slice seq) :
  elems s = [] ->
  Next (mkIterator s None) =
  (Returns (0, Some ErrDone), mkIterator s (Some ErrDone)).
Proof. intros H. unfold Next. simpl. now rewrite H. Qed.

(** The loop of [Parse] collects the values the calls return. *)
Lemma Parse_loop_values (vs : list Z) :
  forall (it it' : Iterator) (acc : list Z) (fuel : nat),
    Next_calls (List.length vs) it = (values vs, it') ->
    Parse_loop (List.length vs + fuel) it (mk_slice acc) =
    Parse_loop fuel it' (mk_slice (acc ++ vs)).
Proof.
  induction vs as [|v vs IH]; intros it it' acc fuel H.
  - simpl in H. injection H as <-. now rewrite app_nil_r.
  - simpl in H. destruct (Next it) as [o it1] eqn:HN.
    destruct (Next_calls (List.length vs) it1) as [os it2] eqn:HC.
    injection H as -> -> ->.
    simpl. rewrite HN. unfold append. simpl elems.
    rewrite (IH it1 it' (acc ++ [v])%list fuel HC).
    now rewrite <- app_assoc.
Qed.

(** More iterations than needed change nothing. *)
Lemma Parse_loop_more (fuel : nat) :
  forall (it : Iterator) (acc : slice Z) r (k : nat),
    Parse_loop fuel it acc = Some r -> Parse_loop (fuel + k) it acc = Some r.
Proof.
  induction fuel as [|fuel IH]; intros it acc r k; [discriminate|].
  simpl. destruct (Next it) as [[[v e]|msg] it']; [|trivial].
  destruct e as [[|ne]|]; auto.
Qed.

(** ** Building the descriptors *)

Section ConstructorFacts.

Import Strings Strconv.

Lemma free_of_app (c : ascii) (a b : string) :
  free_of c (a ++ b) = free_of c a && free_of c b.
Proof.
  induction a as [|x a IH]; simpl; [reflexivity|].
  now rewrite IH, andb_assoc.
Qed.

Lemma free_of_digits (c : ascii) (s : string) :
  is_digit c = false -> all_digits s = true -> free_of c s = true.
Proof.
  intros Hc. induction s as [|x s IH]; simpl; [reflexivity|].
  intros H. apply andb_true_iff in H as [Hx Hs].
  rewrite (IH Hs), andb_true_r.
  destruct (Ascii.eqb_spec x c) as [->|]; [congruence|reflexivity].
Qed.

(** A literal holds its sign and digits only. *)
Lemma literal_free (c : ascii) (s : string) (v : Z) :
  is_digit c = false -> is_sign c = false ->
  literal s = Some v -> free_of c s = true.
Proof.
  intros Hd Hs. destruct s as [|x s]; [discriminate|].
  rewrite literal_cons. cbv zeta.
  destruct (is_sign x) eqn:Hx.
  - destruct s as [|y s]; [discriminate|].
    destruct (all_digits (String y s)) eqn:Hall; [|discriminate].
    intros _. change (free_of c (String x (String y s)))
      with (negb (Ascii.eqb x c) && free_of c (String y s)).
    rewrite (free_of_digits _ _ Hd Hall), andb_true_r.
    destruct (Ascii.eqb_spec x c) as [->|]; [congruence|reflexivity].
  - destruct (all_digits (String x s)) eqn:Hall; [|discriminate].
    intros _. now apply free_of_digits.
Qed.

Lemma literal_not_empty (s : string) (v : Z) : literal s = Some v -> s <> "".
Proof. now destruct s. Qed.

Lemma Split_literal (p : string) (v : Z) :
  literal p = Some v -> Split p "..." = [p].
Proof.
  intros H. apply Split_cut_None. apply cut_none.
  now apply (literal_free "."%char p v).
Qed.

Lemma Split_range (p q : string) (a b : Z) :
  literal p = Some a -> literal q = Some b ->
  Split (p ++ "..." ++ q) "..." = [p; q].
Proof.
  intros Hp Hq.
  apply (Split_Join "."%char ".." [p; q]); [discriminate|].
  repeat constructor.
  - now apply (literal_free "."%char p a).
  - now apply (literal_free "."%char q b).
Qed.

(** The descriptor of an item given by its text. *)
Lemma parse_item_seq (i : item) (d : seq) :
  item_seq i d -> parse_item (item_text i) = (d, None).
Proof.
  intros [p v Hp|p q a b Hp Hq]; unfold parse_item, item_text.
  - rewrite (Split_literal p v) by apply Hp.
    apply Atoi_ok in Hp. now rewrite Hp.
  - rewrite (Split_range p q a b) by (apply Hp || apply Hq).
    apply Atoi_ok in Hp, Hq. now rewrite Hp, Hq.
Qed.

(** An item that gives a descriptor has the text of a well-formed item. *)
Lemma parse_item_inv (t : string) (d : seq) :
  parse_item t = (d, None) -> exists i, item_text i = t /\ item_seq i d.
Proof.
  unfold parse_item. pose proof (Join_Split t "...") as HJ.
  destruct (Split t "...") as [|p [|q [|r l]]] eqn:E; try discriminate.
  - destruct (Atoi p) as [v [e|]] eqn:Hp; [discriminate|].
    intros [= <-]. exists (Single p). split; [exact HJ|].
    constructor. now apply Atoi_ok.
  - destruct (Atoi p) as [a [e|]] eqn:Hp; [discriminate|].
    destruct (Atoi q) as [b [e|]] eqn:Hq; [discriminate|].
    intros [= <-]. exists (Range p q). split; [exact HJ|].
    constructor; now apply Atoi_ok.
Qed.

Lemma item_seq_ok (i : item) (d : seq) : item_seq i d -> seq_ok d.
Proof.
  intros [p v [_ Hv]|p q a b [_ Ha] [_ Hb]]; unfold seq_ok; simpl.
  - repeat split; try apply Hv. right; right. now split.
  - repeat split; try apply Ha; try apply Hb.
    destruct (Z.ltb_spec a b); [left|right; left]; split; lia.
Qed.

Lemma item_seq_denotes (i : item) (d : seq) :
  item_seq i d -> item_denotes i (pending d).
Proof.
  intros [p v Hp|p q a b Hp Hq]; unfold pending; simpl.
  - rewrite run_same. now constructor.
  - now constructor.
Qed.

Lemma item_denotes_seq (i : item) (vs : list Z) :
  item_denotes i vs -> exists d, item_seq i d /\ pending d = vs.
Proof.
  intros [p v Hp|p q a b Hp Hq].
  - exists (mkSeq v v 0). split; [now constructor|apply run_same].
  - exists (mkSeq a b (if a <? b then 1 else -1)). split; [now constructor|reflexivity].
Qed.

Lemma item_text_free (i : item) (d : seq) :
  item_seq i d -> free_of ","%char (item_text i) = true.
Proof.
  intros [p v [Hp _]|p q a b [Hp _] [Hq _]]; unfold item_text.
  - now apply (literal_free _ p v).
  - rewrite !free_of_app.
    rewrite (literal_free _ p a), (literal_free _ q b); auto.
Qed.

Lemma item_text_not_empty (i : item) (d : seq) :
  item_seq i d -> item_text i <> "".
Proof.
  intros [p v [Hp _]|p q a b [Hp _] _]; simpl.
  - now apply literal_not_empty in Hp.
  - apply literal_not_empty in Hp. now destruct p.
Qed.

(** The items given so far are kept in order as long as no item fails. *)
Lemma parse_items_ok (items : list string) (ds : list seq) :
  Forall2 (fun t d => parse_item t = (d, None)) items ds ->
  forall acc : slice seq,
    parse_items items acc = (fold_left append ds acc, None).
Proof.
  induction 1 as [|t d items ds Ht _ IH]; intros acc; simpl; [reflexivity|].
  rewrite Ht. apply IH.
Qed.

Lemma fold_append (A : Type) (l : list A) (acc : slice A) :
  l <> [] -> fold_left append l acc = mk_slice (elems acc ++ l).
Proof.
  revert acc. induction l as [|x l IH]; intros acc Hne; [contradiction|].
  simpl. destruct l as [|y l]; [reflexivity|].
  rewrite IH by discriminate. unfold append. simpl elems.
  now rewrite <- app_assoc.
Qed.

(** The first item that fails ends the loop: nothing is kept but its
    error. *)
Lemma parse_items_err (pre post : list string) (bad : string) (e : error) :
  Forall (fun t => snd (parse_item t) = None) pre ->
  snd (parse_item bad) = Some e ->
  forall acc : slice seq,
    parse_items (pre ++ bad :: post) acc = (nil_slice, Some e).
Proof.
  intros Hpre Hbad. induction Hpre as [|t pre Ht _ IH]; intros acc; simpl.
  - destruct (parse_item bad) as [d o]. simpl in Hbad. now subst o.
  - destruct (parse_item t) as [d o]. simpl in Ht. subst o. apply IH.
Qed.

(** Either every item gives a descriptor or there is a first one that
    fails. *)
Lemma parse_items_cases (items : list string) :
  (exists ds, Forall2 (fun t d => parse_item t = (d, None)) items ds) \/
  (exists pre bad post e,
      items = (pre ++ bad :: post)%list /\
      Forall (fun t => snd (parse_item t) = None) pre /\
      snd (parse_item bad) = Some e).
Proof.
  induction items as [|t items IH].
  - left. exists []. constructor.
  - destruct (parse_item t) as [d [e|]] eqn:Ht.
    + right. exists [], t, items, e. rewrite Ht. repeat split. constructor.
    + destruct IH as [[ds Hds]|(pre & bad & post & e & -> & Hpre & Hbad)].
      * left. exists (d :: ds). now constructor.
      * right. exists (t :: pre), bad, post, e. repeat split; [|assumption].
        constructor; [now rewrite Ht|assumption].
Qed.

Lemma NewIterator_empty : NewIterator "" = mkIterator (mk_slice []) None.
Proof. reflexivity. Qed.

Lemma NewIterator_not_empty (spec : string) :
  spec <> "" ->
  NewIterator spec =
  let '(seqs, err) := parse_items (Split spec ",") nil_slice in
  mkIterator seqs err.
Proof.
  intros Hne. unfold NewIterator.
  destruct (Split spec ",") as [|[|c t] [|u l]] eqn:E; try reflexivity.
  apply Split_single_empty in E; [contradiction|discriminate].
Qed.

(** A specification all of whose items give a descriptor makes a ready
    iterator that holds these descriptors in order. *)
Lemma NewIterator_valid (spec : string) (ds : list seq) :
  spec <> "" ->
  Forall2 (fun t d => parse_item t = (d, None)) (Split spec ",") ds ->
  NewIterator spec = mkIterator (mk_slice ds) None.
Proof.
  intros Hne H. rewrite (NewIterator_not_empty _ Hne).
  rewrite (parse_items_ok _ _ H). rewrite fold_append; [reflexivity|].
  intros ->. inversion H as [E|]. symmetry in E. now apply Split_not_nil in E.
Qed.

(** A specification with an item that fails makes an invalid iterator
    that holds the error of the first such item and no descriptor. *)
Lemma NewIterator_invalid (spec : string) (pre post : list string)
      (bad : string) (e : error) :
  spec <> "" ->
  Split spec "," = (pre ++ bad :: post)%list ->
  Forall (fun t => snd (parse_item t) = None) pre ->
  snd (parse_item bad) = Some e ->
  NewIterator spec = mkIterator nil_slice (Some e).
Proof.
  intros Hne HS Hpre Hbad. rewrite (NewIterator_not_empty _ Hne), HS.
  now rewrite (parse_items_err pre post bad e Hpre Hbad).
Qed.

End ConstructorFacts.

(** ** Collecting the integers *)

Section ParseFacts.

Import Strings.

(** On a ready iterator whose descriptors are in order the loop of
    [Parse] returns all the pending integers. *)
Lemma Parse_loop_ready (ds : list seq) (k : nat) :
  Forall seq_ok ds ->
  Parse_loop (S (List.length (all_pending ds)) + k)
             (mkIterator (mk_slice ds) None) (mk_slice []) =
  Some (Returns (mk_slice (all_pending ds), None)).
Proof.
  intros Hds.
  replace (S (List.length (all_pending ds)) + k)%nat
    with (List.length (all_pending ds) + S k)%nat by lia.
  rewrite (Parse_loop_values _ _ _ _ _ (Next_calls_all ds Hds)).
  simpl. reflexivity.
Qed.

Lemma Parse_fuel_ready (spec : string) (ds : list seq) (k : nat) :
  NewIterator spec = mkIterator (mk_slice ds) None ->
  Forall seq_ok ds ->
  Parse_fuel (S (List.length (all_pending ds)) + k) spec =
  Some (Returns (mk_slice (all_pending ds), None)).
Proof.
  intros HN Hds. unfold Parse_fuel, Err. rewrite HN. cbv zeta. cbn [fst err].
  now apply Parse_loop_ready.
Qed.

Lemma Parse_fuel_invalid (spec : string) (e : error) (fuel : nat) :
  err (NewIterator spec) = Some e ->
  Parse_fuel fuel spec = Some (Returns (nil_slice, Some e)).
Proof.
  intros H. unfold Parse_fuel, Err. cbv zeta. cbn [fst]. now rewrite H.
Qed.

Lemma Parse_fuel_more (spec : string) (fuel k : nat) r :
  Parse_fuel fuel spec = Some r -> Parse_fuel (fuel + k) spec = Some r.
Proof.
  unfold Parse_fuel. destruct (fst (Err (NewIterator spec))); [trivial|].
  apply Parse_loop_more.
Qed.

(** [Parse] ends in one way only. *)
Lemma Parse_ends_fun (spec : string) r1 r2 :
  Parse_ends spec r1 -> Parse_ends spec r2 -> r1 = r2.
Proof.
  intros [f1 H1] [f2 H2].
  apply (Parse_fuel_more _ _ f2) in H1. apply (Parse_fuel_more _ _ f1) in H2.
  rewrite Nat.add_comm in H2. congruence.
Qed.

Lemma parse_item_error (t : string) (e : error) :
  snd (parse_item t) = Some e -> exists ne, e = ErrNum ne.
Proof.
  unfold parse_item.
  destruct (Split t "...") as [|p [|q [|r l]]]; simpl.
  - intros [= <-]. eauto.
  - destruct (Strconv.Atoi p) as [v [ne|]]; simpl; [|discriminate].
    intros [= <-]. eauto.
  - destruct (Strconv.Atoi p) as [a [ne|]]; simpl; [intros [= <-]; eauto|].
    destruct (Strconv.Atoi q) as [b [ne|]]; simpl; [intros [= <-]; eauto|discriminate].
  - intros [= <-]. eauto.
Qed.

(** The texts that give descriptors are the texts of well-formed items. *)
Lemma items_of_texts (texts : list string) (ds : list seq) :
  Forall2 (fun t d => parse_item t = (d, None)) texts ds ->
  exists items, map item_text items = texts /\ Forall2 item_seq items ds.
Proof.
  induction 1 as [|t d texts ds Ht _ (items & <- & IH)].
  - exists []. split; constructor.
  - apply parse_item_inv in Ht as (i & <- & Hi).
    exists (i :: items). split; [reflexivity|now constructor].
Qed.

Lemma texts_of_items (items : list item) (ds : list seq) :
  Forall2 item_seq items ds ->
  Forall2 (fun t d => parse_item t = (d, None)) (map item_text items) ds.
Proof.
  induction 1 as [|i d items ds Hi _ IH]; simpl; constructor;
    [now apply parse_item_seq|assumption].
Qed.

Lemma items_seq_ok (items : list item) (ds : list seq) :
  Forall2 item_seq items ds -> Forall seq_ok ds.
Proof.
  induction 1 as [|i d items ds Hi _ IH]; constructor;
    [now apply (item_seq_ok i)|assumption].
Qed.

Lemma items_denote (items : list item) (ds : list seq) :
  Forall2 item_seq items ds -> Forall2 item_denotes items (map pending ds).
Proof.
  induction 1 as [|i d items ds Hi _ IH]; simpl; constructor;
    [now apply item_seq_denotes|assumption].
Qed.

Lemma items_denoted (items : list item) (vals : list (list Z)) :
  Forall2 item_denotes items vals ->
  exists ds, Forall2 item_seq items ds /\ all_pending ds = List.concat vals.
Proof.
  induction 1 as [|i vs items vals Hi _ (ds & Hds & E)].
  - exists []. split; [constructor|reflexivity].
  - apply item_denotes_seq in Hi as (d & Hd & <-).
    exists (d :: ds). split; [now constructor|].
    unfold all_pending in *. simpl. now rewrite E.
Qed.

Lemma all_pending_concat (ds : list seq) :
  all_pending ds = List.concat (map pending ds).
Proof. unfold all_pending. apply flat_map_concat_map. Qed.

Lemma Join_not_empty (a : string) (l : list string) (sep : string) :
  a <> "" -> Join (a :: l) sep <> "".
Proof.
  intros Ha. destruct l as [|b l]; [exact Ha|].
  change (Join (a :: b :: l) sep) with (a ++ sep ++ Join (b :: l) sep).
  destruct a; [contradiction|discriminate].
Qed.

(** The iterator made from the text of well-formed items holds their
    descriptors in order. *)
Lemma NewIterator_items (items : list item) (ds : list seq) :
  Forall2 item_seq items ds ->
  NewIterator (spec_text items) = mkIterator (mk_slice ds) None.
Proof.
  intros H. destruct H as [|i d items ds Hi Hrest]; [reflexivity|].
  assert (Hall : Forall2 item_seq (i :: items) (d :: ds)) by now constructor.
  unfold spec_text.
  assert (Hfree : Forall (fun a => free_of ","%char a = true)
                         (map item_text (i :: items))).
  { clear -Hall. induction Hall as [|j e js es Hj _ IH]; simpl; constructor;
      [now apply (item_text_free j e)|assumption]. }
  apply NewIterator_valid.
  - simpl map. apply Join_not_empty. now apply (item_text_not_empty i d).
  - rewrite (Split_Join ","%char "" _) by (discriminate || assumption).
    now apply texts_of_items.
Qed.

(** A specification is either the text of well-formed items, whose
    descriptors the iterator then holds in order, or it has a first item
    that fails, whose error the iterator then holds with no descriptor. *)
Lemma NewIterator_cases (spec : string) :
  (exists items ds,
      spec = spec_text items /\ Forall2 item_seq items ds /\
      NewIterator spec = mkIterator (mk_slice ds) None) \/
  (exists ne, NewIterator spec = mkIterator nil_slice (Some (ErrNum ne))).
Proof.
  destruct (string_dec spec "") as [->|Hne].
  - left. exists [], []. repeat split. constructor.
  - destruct (parse_items_cases (Split spec ","))
      as [[ds Hds]|(pre & bad & post & e & HS & Hpre & Hbad)].
    + left. destruct (items_of_texts _ _ Hds) as (items & Ht & Hitems).
      exists items, ds. split; [|split; [assumption|]].
      * unfold spec_text. rewrite Ht. symmetry. apply Join_Split.
      * now apply NewIterator_valid.
    + right. destruct (parse_item_error _ _ Hbad) as [ne ->].
      exists ne. now apply (NewIterator_invalid spec pre post bad).
Qed.

(** [Parse] returns on every specification. *)
Lemma Parse_total (spec : string) : exists out e, Parse_returns spec out e.
Proof.
  destruct (NewIterator_cases spec) as [(items & ds & E & Hds & HN)|[ne HN]].
  - exists (mk_slice (all_pending ds)), None.
    exists (S (List.length (all_pending ds)) + 0)%nat.
    apply Parse_fuel_ready; [assumption|now apply (items_seq_ok items)].
  - exists nil_slice, (Some (ErrNum ne)).
    exists 0%nat. apply Parse_fuel_invalid. now rewrite HN.
Qed.

End ParseFacts.

(** ** Items at fault *)

Section FaultFacts.

Import Strings.

Lemma piece_error_Atoi (p : string) : snd (Strconv.Atoi p) = piece_error p.
Proof. apply Atoi_fault. Qed.

(** The error the constructor finds in an item is the error of the
    item. *)
Lemma parse_item_fault (t : string) :
  snd (parse_item t) = option_map ErrNum (item_error t).
Proof.
  unfold parse_item, item_error.
  destruct (Split t "...") as [|p [|q [|r l]]]; try reflexivity.
  - rewrite <- piece_error_Atoi. now destruct (Strconv.Atoi p) as [v [e|]].
  - rewrite <- !piece_error_Atoi.
    destruct (Strconv.Atoi p) as [a [e|]]; [reflexivity|].
    now destruct (Strconv.Atoi q) as [b [e|]].
Qed.

Lemma item_error_None (t : string) :
  item_error t = None <-> snd (parse_item t) = None.
Proof.
  rewrite parse_item_fault. destruct (item_error t); simpl; split; congruence.
Qed.

Lemma item_error_empty :
  item_error "" = Some (Strconv.syntaxError "Atoi" "").
Proof. reflexivity. Qed.

Lemma Forall_item_error (l : list string) :
  Forall (fun t => item_error t = None) l ->
  Forall (fun t => snd (parse_item t) = None) l.
Proof.
  apply Forall_impl. intros t. apply item_error_None.
Qed.

(** Splitting at one character: a character other than the separator
    joins the first piece. *)
Lemma Split_cons_other (c x : ascii) (s : string) :
  x <> c ->
  Split (String x s) (String c "") =
  match Split s (String c "") with
  | h :: t => String x h :: t
  | [] => []
  end.
Proof.
  intros Hx.
  assert (Hp : HasPrefix (String x s) (String c "") = false).
  { simpl. destruct (Ascii.eqb_spec c x) as [->|]; [contradiction|reflexivity]. }
  destruct (cut s (String c "")) as [[a rest]|] eqn:Hc.
  - rewrite (Split_cut_Some s _ a rest) by (discriminate || assumption).
    apply Split_cut_Some; [discriminate|].
    rewrite cut_eq, Hp, Hc. reflexivity.
  - rewrite (Split_cut_None s _ Hc).
    apply Split_cut_None. rewrite cut_eq, Hp, Hc. reflexivity.
Qed.

Lemma Split_cons_sep (c : ascii) (s : string) :
  Split (String c s) (String c "") = "" :: Split s (String c "").
Proof.
  apply Split_cut_Some; [discriminate|].
  rewrite cut_eq. simpl. rewrite Ascii.eqb_refl. now destruct s.
Qed.

(** Splitting at one character splits the two sides of any of its
    occurrences. *)
Lemma Split_app_char (c : ascii) (a r : string) :
  Split (a ++ String c r) (String c "") =
  (Split a (String c "") ++ Split r (String c ""))%list.
Proof.
  induction a as [|x a IH].
  - change ("" ++ String c r) with (String c r). now rewrite Split_cons_sep.
  - change (String x a ++ String c r) with (String x (a ++ String c r)).
    destruct (Ascii.eqb_spec x c) as [->|Hx].
    + now rewrite !Split_cons_sep, IH.
    + rewrite !(Split_cons_other c x) by assumption. rewrite IH.
      destruct (Split a (String c "")) as [|h t] eqn:E; [|reflexivity].
      now apply Split_not_nil in E.
Qed.

(** Two commas in a row leave an empty item between them. *)
Lemma Split_consecutive_commas (a b : string) :
  Split (a ++ ",," ++ b) "," =
  (Split a "," ++ "" :: Split b ",")%list.
Proof.
  change (a ++ ",," ++ b) with (a ++ String "," (String "," b)).
  now rewrite Split_app_char, Split_cons_sep.
Qed.

(** A specification other than the empty one that has an empty item is
    invalid. *)
Lemma empty_item_invalid (spec : string) :
  spec <> "" -> In "" (Split spec ",") ->
  exists ne, NewIterator spec = mkIterator nil_slice (Some (ErrNum ne)).
Proof.
  intros Hne Hin.
  destruct (parse_items_cases (Split spec ","))
    as [[ds Hds]|(pre & bad & post & e & HS & Hpre & Hbad)].
  - exfalso. clear Hne. induction Hds as [|t d ts ds Ht _ IH]; [contradiction|].
    destruct Hin as [->|Hin]; [|auto].
    pose proof (parse_item_fault "") as Hf. rewrite Ht in Hf. discriminate.
  - destruct (parse_item_error _ _ Hbad) as [ne ->].
    exists ne. now apply (NewIterator_invalid spec pre post bad).
Qed.

End FaultFacts.

(** ** The life of an iterator *)

Section LifeFacts.

(** Once the error slot is set no call changes the iterator. *)
Lemma Next_stuck (it : Iterator) (e : error) :
  err it = Some e -> snd (Next it) = it.
Proof. intros H. unfold Next. rewrite H. now destruct (is_ErrDone e). Qed.

Lemma do_calls_stuck (cs : list call) (it : Iterator) (e : error) :
  err it = Some e -> do_calls cs it = it.
Proof.
  intros H. unfold do_calls. induction cs as [|c cs IH]; [reflexivity|].
  simpl. destruct c; simpl; [rewrite (Next_stuck it e H)|]; exact IH.
Qed.

(** From the ready state a call of [Next] leads to the ready state or to
    completion. *)
Lemma Next_ready (it : Iterator) :
  err it = None ->
  err (snd (Next it)) = None \/ err (snd (Next it)) = Some ErrDone.
Proof.
  intros H. unfold Next. rewrite H.
  destruct (elems (seqs it)) as [|d rest]; [now right|].
  destruct (next d =? last d); now left.
Qed.

(** What a call of [Next] does to the descriptors of a ready iterator. *)
Lemma Next_seqs (it : Iterator) (d : seq) (rest : list seq) :
  err it = None -> elems (seqs it) = d :: rest ->
  fst (Next it) = Returns (next d, None) /\
  elems (seqs (snd (Next it))) =
  if next d =? last d then rest
  else mkSeq (wrap_int (next d + step d)) (last d) (step d) :: rest.
Proof.
  intros He Hs. unfold Next. rewrite He, Hs.
  destruct (next d =? last d); split; reflexivity.
Qed.

Lemma seq_ok_advance (d : seq) :
  seq_ok d -> next d <> last d ->
  wrap_int (next d + step d) = next d + step d /\
  seq_ok (mkSeq (next d + step d) (last d) (step d)) /\
  Z.abs (last d - (next d + step d)) = Z.abs (last d - next d) - 1.
Proof.
  intros (Hn & Hl & Hdir) Hne. unfold in_int in *.
  split; [apply wrap_int_id; unfold in_int; lia|].
  split; [unfold seq_ok, in_int; simpl; lia|lia].
Qed.

(** The descriptors stay in order under [Next]. *)
Lemma Next_keeps_ok (it : Iterator) :
  Forall seq_ok (elems (seqs it)) ->
  Forall seq_ok (elems (seqs (snd (Next it)))).
Proof.
  intros H. destruct (err it) as [e|] eqn:He.
  - now rewrite (Next_stuck it e He).
  - destruct (elems (seqs it)) as [|d rest] eqn:Hs.
    + unfold Next. rewrite He, Hs. simpl. now rewrite Hs.
    + destruct (Next_seqs it d rest He Hs) as [_ ->].
      inversion H as [|? ? Hd Hrest]; subst.
      destruct (Z.eqb_spec (next d) (last d)) as [_|Hne]; [assumption|].
      destruct (seq_ok_advance d Hd Hne) as (-> & Hok & _).
      now constructor.
Qed.

Lemma Next_calls_snd_S (n : nat) (it : Iterator) :
  snd (Next_calls (S n) it) = snd (Next (snd (Next_calls n it))).
Proof.
  replace (S n) with (n + 1)%nat by lia. rewrite Next_calls_add.
  destruct (Next_calls n it) as [os it']. simpl.
  now destruct (Next it').
Qed.

Lemma Next_calls_keep_ok (n : nat) (it : Iterator) :
  Forall seq_ok (elems (seqs it)) ->
  Forall seq_ok (elems (seqs (snd (Next_calls n it)))).
Proof.
  intros H. induction n as [|n IH]; [exact H|].
  rewrite Next_calls_snd_S. now apply Next_keeps_ok.
Qed.

(** The constructor leaves descriptors in order. *)
Lemma NewIterator_ok (spec : string) :
  Forall seq_ok (elems (seqs (NewIterator spec))).
Proof.
  destruct (NewIterator_cases spec) as [(items & ds & _ & Hds & ->)|[ne ->]].
  - simpl. now apply (items_seq_ok items).
  - constructor.
Qed.

(** An iterator that holds a descriptor is ready. *)
Lemma Next_keeps_ready (it : Iterator) :
  (elems (seqs it) <> [] -> err it = None) ->
  elems (seqs (snd (Next it))) <> [] -> err (snd (Next it)) = None.
Proof.
  intros H. destruct (err it) as [e|] eqn:He.
  - rewrite (Next_stuck it e He). intros Hs. specialize (H Hs). discriminate.
  - unfold Next. rewrite He.
    destruct (elems (seqs it)) as [|d rest] eqn:Hs.
    + simpl. rewrite Hs. congruence.
    + destruct (next d =? last d); reflexivity.
Qed.

Lemma held_ready (spec : string) (n : nat) :
  elems (seqs (snd (Next_calls n (NewIterator spec)))) <> [] ->
  err (snd (Next_calls n (NewIterator spec))) = None.
Proof.
  induction n as [|n IH].
  - simpl. destruct (NewIterator_cases spec) as [(items & ds & _ & _ & ->)|[ne ->]];
      simpl; congruence.
  - rewrite Next_calls_snd_S. now apply Next_keeps_ready.
Qed.

End LifeFacts.

(** ** The tests of the package *)

(** [TestParse] passes: on each row of its table [Parse] returns the
    expected sequence with no error, or the [nil] sequence with an error
    of the expected kind. *)
Lemma TestParse : Forall test_passes parseTests.
Proof.
  repeat constructor; unfold test_passes; simpl fst; simpl snd;
    try (exists 16%nat; reflexivity);
    eexists; (split; [exists 0%nat; reflexivity|reflexivity]).
Qed.

(** * The claims *)

(** C1. For every valid specification the integers come out in the order
    of the items, a single integer as itself and a range [a...b] as the
    inclusive run from [a] to [b] (ascending when [a <= b], descending
    when [a > b]): [Parse] applied to the text of well-formed items returns
    the concatenation of what the items denote, with no error; every
    specification the constructor accepts is such a text; and
    [Parse("-1...2,6...4")] returns [-1, 0, 1, 2, 6, 5, 4] with no error. *)
Theorem Parse_expands_items_in_order :
  (forall (items : list item) (vals : list (list Z)),
      Forall2 item_denotes items vals ->
      Parse_returns (spec_text items) (mk_slice (List.concat vals)) None) /\
  (forall spec : string,
      err (NewIterator spec) = None ->
      exists items vals,
        spec = spec_text items /\ Forall2 item_denotes items vals /\
        Parse_returns spec (mk_slice (List.concat vals)) None) /\
  Parse_returns "-1...2,6...4" (mk_slice [-1; 0; 1; 2; 6; 5; 4]) None.
Proof.
  assert (Hitems : forall (items : list item) (vals : list (list Z)),
             Forall2 item_denotes items vals ->
             Parse_returns (spec_text items) (mk_slice (List.concat vals)) None).
  { intros items vals H.
    destruct (items_denoted _ _ H) as (ds & Hds & <-).
    exists (S (List.length (all_pending ds)) + 0)%nat.
    apply Parse_fuel_ready; [now apply NewIterator_items|].
    now apply (items_seq_ok items). }
  split; [exact Hitems|split].
  - intros spec Herr.
    destruct (NewIterator_cases spec) as [(items & ds & -> & Hds & _)|[ne HN]].
    + exists items, (map pending ds).
      pose proof (items_denote _ _ Hds) as Hden. auto.
    + rewrite HN in Herr. discriminate.
  - exists 8%nat. reflexivity.
Qed.

Lemma Parse_expands_items_in_order_witness :
  Parse_returns (spec_text [Range "3" "5"; Single "-7"; Range "2" "1"])
                (mk_slice (List.concat [run 3 5; [-7]; run 2 1])) None /\
  exists items vals,
    "4,6,10...15" = spec_text items /\ Forall2 item_denotes items vals /\
    Parse_returns "4,6,10...15" (mk_slice (List.concat vals)) None.
Proof.
  split.
  - apply (proj1 Parse_expands_items_in_order).
    repeat constructor; vm_compute; congruence.
  - apply (proj1 (proj2 Parse_expands_items_in_order)). reflexivity.
Defined.

(** C2. For every specification [Parse] returns, and in one way only:
    either the fully expanded sequence of the items in order with no
    error, or the error found by the constructor with the [nil] sequence;
    never both and never part of a sequence with an error. *)
Theorem Parse_sequence_or_error (spec : string) :
  exists out e,
    Parse_returns spec out e /\
    (forall r, Parse_ends spec r -> r = Returns (out, e)) /\
    ((e = None /\ err (NewIterator spec) = None /\
      exists items vals,
        spec = spec_text items /\ Forall2 item_denotes items vals /\
        out = mk_slice (List.concat vals)) \/
     (out = nil_slice /\
      exists ne, e = Some (ErrNum ne) /\ err (NewIterator spec) = Some (ErrNum ne))).
Proof.
  destruct (NewIterator_cases spec) as [(items & ds & E & Hds & HN)|[ne HN]].
  - assert (HP : Parse_returns spec (mk_slice (all_pending ds)) None).
    { exists (S (List.length (all_pending ds)) + 0)%nat.
      apply Parse_fuel_ready; [assumption|now apply (items_seq_ok items)]. }
    exists (mk_slice (all_pending ds)), None. split; [exact HP|split].
    + intros r Hr. exact (Parse_ends_fun spec _ _ Hr HP).
    + left. split; [reflexivity|]. split; [now rewrite HN|].
      exists items, (map pending ds). split; [assumption|].
      split; [now apply items_denote|]. now rewrite all_pending_concat.
  - assert (HP : Parse_returns spec nil_slice (Some (ErrNum ne))).
    { exists 0%nat. apply Parse_fuel_invalid. now rewrite HN. }
    exists nil_slice, (Some (ErrNum ne)). split; [exact HP|split].
    + intros r Hr. exact (Parse_ends_fun spec _ _ Hr HP).
    + right. split; [reflexivity|]. exists ne. split; [reflexivity|now rewrite HN].
Qed.

Lemma Parse_sequence_or_error_witness :
  exists out e,
    Parse_returns "4,12...8,-3" out e /\
    (forall r, Parse_ends "4,12...8,-3" r -> r = Returns (out, e)) /\
    ((e = None /\ err (NewIterator "4,12...8,-3") = None /\
      exists items vals,
        "4,12...8,-3" = spec_text items /\ Forall2 item_denotes items vals /\
        out = mk_slice (List.concat vals)) \/
     (out = nil_slice /\
      exists ne, e = Some (ErrNum ne) /\
                 err (NewIterator "4,12...8,-3") = Some (ErrNum ne))).
Proof. exact (Parse_sequence_or_error "4,12...8,-3"). Defined.

(** C3. [Next] on an iterator whose error slot holds a validation failure
    panics with the message that the iterator is invalid; [Next] on an
    iterator that has signalled completion (in particular a call that
    follows the one that returned [ErrDone]) panics with the message that
    it was called again after [ErrDone]; the two messages differ, neither
    call returns an error value, and the state is left as it was. *)
Theorem Next_misuse_panics :
  (forall (it : Iterator) (ne : Strconv.NumError),
      err it = Some (ErrNum ne) ->
      Next it = (Panics "Next() called on invalid iterator.", it)) /\
  (forall it : Iterator,
      err it = Some ErrDone ->
      Next it = (Panics "Next() called again after returning ErrDone.", it)) /\
  (forall (it it' : Iterator) (v : Z),
      Next it = (Returns (v, Some ErrDone), it') ->
      Next it' = (Panics "Next() called again after returning ErrDone.", it')) /\
  "Next() called on invalid iterator."
    <> "Next() called again after returning ErrDone." /\
  fst (Next (NewIterator "2.3")) = Panics "Next() called on invalid iterator." /\
  fst (Next (NewIterator "")) = Returns (0, Some ErrDone) /\
  fst (Next (snd (Next (NewIterator ""))))
    = Panics "Next() called again after returning ErrDone.".
Proof.
  assert (Hdone : forall it : Iterator,
             err it = Some ErrDone ->
             Next it = (Panics "Next() called again after returning ErrDone.", it)).
  { intros it H. unfold Next. now rewrite H. }
  split; [|split; [exact Hdone|split; [|split; [discriminate|]]]].
  - intros it ne H. unfold Next. now rewrite H.
  - intros it it' v H. apply Hdone. unfold Next in H.
    destruct (err it) as [e|] eqn:He.
    + destruct (is_ErrDone e); discriminate.
    + destruct (elems (seqs it)) as [|d rest].
      * now injection H as _ <-.
      * destruct (next d =? last d); discriminate.
  - repeat split.
Qed.

Lemma Next_misuse_panics_witness :
  Next (NewIterator "3.5,12")
  = (Panics "Next() called on invalid iterator.", NewIterator "3.5,12") /\
  Next (mkIterator (mk_slice []) (Some ErrDone))
  = (Panics "Next() called again after returning ErrDone.",
     mkIterator (mk_slice []) (Some ErrDone)) /\
  Next (snd (Next (NewIterator "")))
  = (Panics "Next() called again after returning ErrDone.",
     snd (Next (NewIterator ""))).
Proof.
  split; [|split].
  - apply (proj1 Next_misuse_panics _ (Strconv.syntaxError "Atoi" "3.5")).
    reflexivity.
  - apply (proj1 (proj2 Next_misuse_panics)). reflexivity.
  - apply (proj1 (proj2 (proj2 Next_misuse_panics)) (NewIterator "") _ 0).
    reflexivity.
Defined.

(** C4. In a specification other than the empty one, the
    first item at fault in left-to-right order ends the construction,
    whatever follows it: the iterator holds no descriptor ([seqs] is
    [nil]) and the error of that item, which no later call changes.  The
    error is a [NumError] of kind [ErrSyntax] or [ErrRange]: a syntax
    error for an item with more than one range separator and for the empty
    item; otherwise the error of the first piece at fault, which is a range
    error for a literal whose value does not fit [int] and a syntax error
    for a piece that is no literal, unless the leading digits of that
    piece already exceed 64 bits, which is reported as a range error. *)
Theorem first_error_is_recorded
        (spec : string) (pre post : list string) (bad : string)
        (ne : Strconv.NumError) :
  spec <> "" ->
  Strings.Split spec "," = (pre ++ bad :: post)%list ->
  Forall (fun t => item_error t = None) pre ->
  item_error bad = Some ne ->
  NewIterator spec = mkIterator nil_slice (Some (ErrNum ne)) /\
  len (seqs (NewIterator spec)) = 0%nat /\
  (forall cs : list call,
      do_calls cs (NewIterator spec) = mkIterator nil_slice (Some (ErrNum ne))) /\
  (Strconv.Err ne = Strconv.ErrSyntax \/ Strconv.Err ne = Strconv.ErrRange) /\
  (forall p q r l, Strings.Split bad "..." = p :: q :: r :: l ->
                   ne = Strconv.syntaxError "NewIterator" bad) /\
  (bad = "" -> ne = Strconv.syntaxError "Atoi" "") /\
  (forall p, Strings.Split bad "..." = [p] ->
             exists k, literal_fault p = Some k /\ ne = Strconv.mkNumError "Atoi" p k).
Proof.
  intros Hne HS Hpre Hbad.
  assert (HN : NewIterator spec = mkIterator nil_slice (Some (ErrNum ne))).
  { apply (NewIterator_invalid spec pre post bad); try assumption.
    - now apply Forall_item_error.
    - rewrite parse_item_fault, Hbad. reflexivity. }
  rewrite HN. repeat split.
  - intros cs. now apply (do_calls_stuck cs _ (ErrNum ne)).
  - destruct (Strconv.Err ne); auto.
  - intros p q r l E. unfold item_error in Hbad. rewrite E in Hbad.
    now injection Hbad as <-.
  - intros ->. rewrite item_error_empty in Hbad. now injection Hbad as <-.
  - intros p E. unfold item_error, piece_error in Hbad. rewrite E in Hbad.
    destruct (literal_fault p) as [k|]; [|discriminate].
    exists k. split; [reflexivity|]. now injection Hbad as <-.
Qed.

Lemma first_error_is_recorded_witness :
  NewIterator "1...3,7,2...5.4,x,,"
  = mkIterator nil_slice (Some (ErrNum (Strconv.syntaxError "Atoi" "5.4"))).
Proof.
  apply (first_error_is_recorded "1...3,7,2...5.4,x,,"
           ["1...3"; "7"] ["x"; ""; ""] "2...5.4"
           (Strconv.syntaxError "Atoi" "5.4")).
  - discriminate.
  - reflexivity.
  - repeat constructor.
  - reflexivity.
Defined.

(** C4, the exception: a malformed integer is not always recorded as a
    syntax error.  The item ["99999999999999999999x"] is no integer
    literal, and the error recorded for it is a range error. *)
Lemma malformed_integer_recorded_as_range_error :
  ~ (literal "99999999999999999999x" = None ->
     exists ne,
       err (NewIterator "99999999999999999999x") = Some (ErrNum ne) /\
       Strconv.Err ne = Strconv.ErrSyntax).
Proof.
  intros H. destruct (H eq_refl) as (ne & E & K).
  vm_compute in E. injection E as <-. discriminate.
Qed.

(** C5. The empty specification makes a ready iterator with no descriptor
    and no error, and [Parse("")] returns an empty sequence that is not
    [nil], with no error.  Any other empty item is a syntax error: the
    empty item is at fault with a syntax error; a specification other than
    [""] that has an empty item is invalid, and records that syntax error
    when the empty item is its first item at fault; two commas in a row
    leave such an empty item. *)
Theorem empty_specification_only :
  NewIterator "" = mkIterator (mk_slice []) None /\
  Parse_returns "" (mk_slice []) None /\
  mk_slice [] <> @nil_slice Z /\
  item_error "" = Some (Strconv.syntaxError "Atoi" "") /\
  (forall spec : string,
      spec <> "" -> In "" (Strings.Split spec ",") ->
      exists ne, NewIterator spec = mkIterator nil_slice (Some (ErrNum ne))) /\
  (forall (spec : string) (pre post : list string),
      spec <> "" ->
      Strings.Split spec "," = (pre ++ "" :: post)%list ->
      Forall (fun t => item_error t = None) pre ->
      NewIterator spec
      = mkIterator nil_slice (Some (ErrNum (Strconv.syntaxError "Atoi" "")))) /\
  (forall a b : string,
      In "" (Strings.Split (a ++ ",," ++ b) ",") /\ a ++ ",," ++ b <> "").
Proof.
  split; [reflexivity|]. split; [exists 1%nat; reflexivity|].
  split; [discriminate|]. split; [reflexivity|].
  split; [exact empty_item_invalid|]. split.
  - intros spec pre post Hne HS Hpre.
    apply (NewIterator_invalid spec pre post ""); try assumption.
    + now apply Forall_item_error.
    + reflexivity.
  - intros a b. split.
    + rewrite Split_consecutive_commas. apply in_or_app. right. now left.
    + destruct a; discriminate.
Qed.

Lemma empty_specification_only_witness :
  NewIterator "1,,2"
  = mkIterator nil_slice (Some (ErrNum (Strconv.syntaxError "Atoi" ""))) /\
  exists ne, NewIterator "x,3," = mkIterator nil_slice (Some (ErrNum ne)).
Proof.
  split.
  - apply (proj1 (proj2 (proj2 (proj2 (proj2 (proj2 empty_specification_only)))))
             "1,,2" ["1"] ["2"]).
    + discriminate.
    + reflexivity.
    + repeat constructor.
  - apply (proj1 (proj2 (proj2 (proj2 (proj2 empty_specification_only))))).
    + discriminate.
    + vm_compute. tauto.
Defined.



(** C7. Once the error slot holds a parse failure or [ErrDone], no
    sequence of calls of [Next] and [Err] changes it (nor anything else of
    the iterator): invalid and done are absorbing, a ready iterator moves
    to ready or done only, and [Err] returns the slot and leaves the state
    as it is. *)
Theorem error_slot_is_absorbing :
  (forall (it : Iterator) (e : error) (cs : list call),
      err it = Some e ->
      do_calls cs it = it /\ err (do_calls cs it) = Some e) /\
  (forall (it : Iterator) (cs : list call),
      phase_of it = Invalid -> phase_of (do_calls cs it) = Invalid) /\
  (forall (it : Iterator) (cs : list call),
      phase_of it = Done -> phase_of (do_calls cs it) = Done) /\
  (forall it : Iterator,
      phase_of it = Ready ->
      phase_of (snd (Next it)) = Ready \/ phase_of (snd (Next it)) = Done) /\
  (forall it : Iterator, Err it = (err it, it)).
Proof.
  assert (Hstuck : forall (it : Iterator) (e : error) (cs : list call),
             err it = Some e ->
             do_calls cs it = it /\ err (do_calls cs it) = Some e).
  { intros it e cs H. rewrite (do_calls_stuck cs it e H). now split. }
  split; [exact Hstuck|]. repeat split.
  - intros it cs H. unfold phase_of in H.
    destruct (err it) as [[|ne]|] eqn:He; try discriminate.
    destruct (Hstuck it _ cs He) as [-> _]. unfold phase_of. now rewrite He.
  - intros it cs H. unfold phase_of in H.
    destruct (err it) as [[|ne]|] eqn:He; try discriminate.
    destruct (Hstuck it _ cs He) as [-> _]. unfold phase_of. now rewrite He.
  - intros it H. unfold phase_of in H.
    destruct (err it) as [[|ne]|] eqn:He; try discriminate.
    unfold phase_of. destruct (Next_ready it He) as [-> | ->]; auto.
Qed.

Lemma error_slot_is_absorbing_witness :
  (do_calls [CallNext; CallErr; CallNext] (snd (Next (NewIterator "")))
   = snd (Next (NewIterator "")) /\
   err (do_calls [CallNext; CallErr; CallNext] (snd (Next (NewIterator ""))))
   = Some ErrDone) /\
  phase_of (do_calls [CallErr; CallNext; CallNext] (NewIterator "2.3")) = Invalid /\
  phase_of (do_calls [CallNext; CallErr] (snd (Next (NewIterator "")))) = Done /\
  (phase_of (snd (Next (NewIterator "7"))) = Ready \/
   phase_of (snd (Next (NewIterator "7"))) = Done).
Proof.
  split; [|split; [|split]].
  - apply (proj1 error_slot_is_absorbing). reflexivity.
  - apply (proj1 (proj2 error_slot_is_absorbing)). reflexivity.
  - apply (proj1 (proj2 (proj2 error_slot_is_absorbing))). reflexivity.
  - apply (proj1 (proj2 (proj2 (proj2 error_slot_is_absorbing)))). reflexivity.
Defined.

(** C8, the exception: the descriptor of a single integer has step 0,
    which is neither [+1] nor [-1]. *)
Lemma single_integer_step_is_zero :
  ~ Forall (fun d => step d = 1 \/ step d = -1)
           (elems (seqs (NewIterator "5"))).
Proof.
  intros H. inversion H as [|d ds [Hd|Hd] _]; discriminate.
Qed.

(** C8. The descriptors of a ready iterator are those of its
    items: step [+1] or [-1] for a range and step 0 with [next = last] for
    a single integer.  After any number of calls of [Next] the first
    descriptor held has its step pointing from [next] to [last] (or step
    0 with [next = last]); the following call returns its [next] and either
    drops it, when [next = last], or keeps its [last] and [step] and moves
    [next] by [step], one closer to [last]; the other descriptors are left
    as they are.  Where [next = last] the step is not read. *)
Theorem descriptors_move_toward_last :
  (forall spec : string,
      err (NewIterator spec) = None ->
      exists items,
        spec = spec_text items /\
        Forall2 item_seq items (elems (seqs (NewIterator spec)))) /\
  (forall (spec : string) (n : nat) (d : seq) (rest : list seq),
      let it := snd (Next_calls n (NewIterator spec)) in
      elems (seqs it) = d :: rest ->
      ((step d = 1 /\ next d <= last d) \/
       (step d = -1 /\ last d <= next d) \/
       (step d = 0 /\ next d = last d)) /\
      fst (Next it) = Returns (next d, None) /\
      (next d = last d -> elems (seqs (snd (Next it))) = rest) /\
      (next d <> last d ->
       elems (seqs (snd (Next it)))
       = mkSeq (next d + step d) (last d) (step d) :: rest /\
       Z.abs (last d - (next d + step d)) = Z.abs (last d - next d) - 1)) /\
  (forall (v s : Z) (rest : list seq),
      Next (mkIterator (mk_slice (mkSeq v v s :: rest)) None)
      = (Returns (v, None), mkIterator (mk_slice rest) None)).
Proof.
  split; [|split].
  - intros spec Herr.
    destruct (NewIterator_cases spec) as [(items & ds & E & Hds & HN)|[ne HN]].
    + exists items. rewrite HN. now split.
    + rewrite HN in Herr. discriminate.
  - intros spec n d rest it Hs.
    assert (Hready : err it = None).
    { apply held_ready. fold it. rewrite Hs. discriminate. }
    assert (Hok : seq_ok d).
    { pose proof (Next_calls_keep_ok n _ (NewIterator_ok spec)) as H.
      fold it in H. rewrite Hs in H. now inversion H. }
    destruct (Next_seqs it d rest Hready Hs) as [Hval Hnext].
    split; [apply Hok|]. split; [exact Hval|]. rewrite Hnext. split.
    + intros E. apply Z.eqb_eq in E. now rewrite E.
    + intros Hne. destruct (seq_ok_advance d Hok Hne) as (-> & _ & Habs).
      apply Z.eqb_neq in Hne. rewrite Hne. now split.
  - intros v s rest. unfold Next. cbn [err seqs elems next last step].
    now rewrite Z.eqb_refl.
Qed.

Lemma descriptors_move_toward_last_witness :
  (exists items,
      "9...6,4" = spec_text items /\
      Forall2 item_seq items (elems (seqs (NewIterator "9...6,4")))) /\
  elems (seqs (snd (Next (snd (Next_calls 2 (NewIterator "9...6,4"))))))
  = [mkSeq 6 6 (-1); mkSeq 4 4 0].
Proof.
  split.
  - apply (proj1 descriptors_move_toward_last "9...6,4"). reflexivity.
  - apply (proj1 (proj2 descriptors_move_toward_last) "9...6,4" 2%nat
             (mkSeq 7 6 (-1)) [mkSeq 4 4 0]).
    + reflexivity.
    + discriminate.
Defined.

(** C9. On an iterator constructed without error the calls of [Next]
    come to an end after one call for each integer the specification
    denotes and one final call.  For the text of well-formed items that
    denote the integers [vals] (the runs of the items, in order), the first
    [length vals] calls return these integers, each with no error, the
    call after them returns [ErrDone] and leaves the iterator done with no
    descriptor, and [Parse] returns [vals]; every specification the
    constructor accepts is such a text, so that its iterator is done after
    exactly that many calls; and [Parse] returns on every specification,
    valid or not. *)
Theorem Next_and_Parse_terminate :
  (forall (items : list item) (valss : list (list Z)),
      Forall2 item_denotes items valss ->
      Next_calls (S (List.length (List.concat valss)))
                 (NewIterator (spec_text items))
      = ((values (List.concat valss) ++ [Returns (0, Some ErrDone)])%list,
         mkIterator (mk_slice []) (Some ErrDone)) /\
      Parse_returns (spec_text items) (mk_slice (List.concat valss)) None) /\
  (forall spec : string,
      err (NewIterator spec) = None ->
      exists (items : list item) (valss : list (list Z)),
        spec = spec_text items /\
        Forall2 item_denotes items valss /\
        Next_calls (S (List.length (List.concat valss))) (NewIterator spec)
        = ((values (List.concat valss) ++ [Returns (0, Some ErrDone)])%list,
           mkIterator (mk_slice []) (Some ErrDone)) /\
        Parse_returns spec (mk_slice (List.concat valss)) None) /\
  (forall spec : string, exists out e, Parse_returns spec out e).
Proof.
  assert (Hitems : forall (items : list item) (valss : list (list Z)),
             Forall2 item_denotes items valss ->
             Next_calls (S (List.length (List.concat valss)))
                        (NewIterator (spec_text items))
             = ((values (List.concat valss) ++ [Returns (0, Some ErrDone)])%list,
                mkIterator (mk_slice []) (Some ErrDone)) /\
             Parse_returns (spec_text items) (mk_slice (List.concat valss)) None).
  { intros items valss H.
    destruct (items_denoted _ _ H) as (ds & Hds & <-).
    pose proof (items_seq_ok _ _ Hds) as Hok.
    pose proof (NewIterator_items _ _ Hds) as HN. split.
    - replace (S (List.length (all_pending ds)))
        with (List.length (all_pending ds) + 1)%nat by lia.
      rewrite Next_calls_add, HN, (Next_calls_all ds Hok). reflexivity.
    - exists (S (List.length (all_pending ds)) + 0)%nat.
      now apply Parse_fuel_ready. }
  split; [exact Hitems|split; [|exact Parse_total]].
  intros spec Herr.
  destruct (NewIterator_cases spec) as [(items & ds & -> & Hds & _)|[ne HN]];
    [|rewrite HN in Herr; discriminate].
  pose proof (items_denote _ _ Hds) as Hden.
  destruct (Hitems _ _ Hden) as [HC HP].
  exists items, (map pending ds). auto.
Qed.

Lemma Next_and_Parse_terminate_witness :
  Next_calls 9 (NewIterator "1...3,7,5...3,9")
  = ((values [1; 2; 3; 7; 5; 4; 3; 9] ++ [Returns (0, Some ErrDone)])%list,
     mkIterator (mk_slice []) (Some ErrDone)) /\
  Parse_returns "1...3,7,5...3,9" (mk_slice [1; 2; 3; 7; 5; 4; 3; 9]) None.
Proof.
  apply (proj1 Next_and_Parse_terminate
           [Range "1" "3"; Single "7"; Range "5" "3"; Single "9"]
           [run 1 3; [7]; run 5 3; [9]]).
  repeat constructor; vm_compute; congruence.
Defined.

(** C10. An integer literal with a leading ['+'] is accepted: the
    specification ["+5"] makes a ready iterator with the single integer 5,
    and [Parse("+5")] returns the sequence [5] with no error. *)
Theorem plus_sign_is_accepted :
  Strconv.Atoi "+5" = (5, None) /\
  NewIterator "+5" = mkIterator (mk_slice [mkSeq 5 5 0]) None /\
  Parse_returns "+5" (mk_slice [5]) None.
Proof.
  split; [reflexivity|]. split; [reflexivity|].
  exists 2%nat. reflexivity.
Qed.

(** * Further properties of the package *)

Section MoreFacts.

Import Strings.

(** A specification other than the empty one: either all its items give
    descriptors, which the iterator holds, or the first item at fault gives
    its error. *)
Lemma NewIterator_split_cases (spec : string) :
  spec <> "" ->
  (exists ds,
      Forall2 (fun t d => parse_item t = (d, None)) (Split spec ",") ds /\
      NewIterator spec = mkIterator (mk_slice ds) None) \/
  (exists pre bad post e,
      Split spec "," = (pre ++ bad :: post)%list /\
      Forall (fun t => snd (parse_item t) = None) pre /\
      snd (parse_item bad) = Some e /\
      NewIterator spec = mkIterator nil_slice (Some e)).
Proof.
  intros Hne.
  destruct (parse_items_cases (Split spec ","))
    as [[ds Hds]|(pre & bad & post & e & HS & Hpre & Hbad)].
  - left. exists ds. split; [assumption|now apply NewIterator_valid].
  - right. exists pre, bad, post, e. repeat split; try assumption.
    now apply (NewIterator_invalid spec pre post bad).
Qed.

(** A sequence returned without error is that of the descriptors of
    well-formed items. *)
Lemma Parse_returns_ready (spec : string) (out : slice Z) :
  Parse_returns spec out None ->
  exists items ds,
    spec = spec_text items /\ Forall2 item_seq items ds /\
    NewIterator spec = mkIterator (mk_slice ds) None /\
    out = mk_slice (all_pending ds).
Proof.
  intros HP.
  destruct (NewIterator_cases spec) as [(items & ds & E & Hds & HN)|[ne HN]].
  - exists items, ds. repeat split; try assumption.
    assert (HP' : Parse_returns spec (mk_slice (all_pending ds)) None).
    { exists (S (List.length (all_pending ds)) + 0)%nat.
      apply Parse_fuel_ready; [assumption|now apply (items_seq_ok items)]. }
    pose proof (Parse_ends_fun spec _ _ HP HP') as H. now injection H.
  - assert (HP' : Parse_returns spec nil_slice (Some (ErrNum ne))).
    { exists 0%nat. apply Parse_fuel_invalid. now rewrite HN. }
    pose proof (Parse_ends_fun spec _ _ HP HP') as H. discriminate.
Qed.

Lemma Parse_returns_items (items : list item) (ds : list seq) :
  Forall2 item_seq items ds ->
  Parse_returns (spec_text items) (mk_slice (all_pending ds)) None.
Proof.
  intros H. exists (S (List.length (all_pending ds)) + 0)%nat.
  apply Parse_fuel_ready; [now apply NewIterator_items|].
  now apply (items_seq_ok items).
Qed.

Lemma all_pending_app (a b : list seq) :
  all_pending (a ++ b) = (all_pending a ++ all_pending b)%list.
Proof. unfold all_pending. apply flat_map_app. Qed.

Lemma pending_not_nil (d : seq) : pending d <> [].
Proof.
  unfold pending. intros H. apply (f_equal (@List.length Z)) in H.
  rewrite run_length in H. discriminate.
Qed.

Lemma all_pending_length (ds : list seq) :
  List.length (all_pending ds) = list_sum (map seq_length ds).
Proof.
  induction ds as [|d ds IH]; [reflexivity|].
  unfold all_pending in *. simpl flat_map. rewrite length_app, IH.
  unfold pending at 1. rewrite run_length. reflexivity.
Qed.

End MoreFacts.

(** X1. The sequence [Parse] returns has as many integers as its items
    stand for: for each descriptor the constructor builds, one when it is
    a single integer and the distance between the two ends plus one when
    it is a range. *)
Theorem Parse_length (spec : string) (out : list Z) :
  Parse_returns spec (mk_slice out) None ->
  List.length out
  = list_sum (map seq_length (elems (seqs (NewIterator spec)))).
Proof.
  intros HP.
  destruct (Parse_returns_ready _ _ HP) as (items & ds & _ & _ & HN & E).
  injection E as ->. rewrite HN. apply all_pending_length.
Qed.

Lemma Parse_length_witness :
  List.length [4; 12; 11; 10; 9; 8; -3]
  = list_sum (map seq_length (elems (seqs (NewIterator "4,12...8,-3")))).
Proof.
  apply (Parse_length "4,12...8,-3" [4; 12; 11; 10; 9; 8; -3]).
  exists 8%nat. reflexivity.
Defined.

(** X2. The empty sequence is denoted by the empty specification only:
    [Parse] returns an empty sequence without error exactly on [""]. *)
Theorem Parse_empty_iff (spec : string) :
  Parse_returns spec (mk_slice []) None <-> spec = "".
Proof.
  split.
  - intros HP.
    destruct (Parse_returns_ready _ _ HP) as (items & ds & E & Hds & _ & Hout).
    destruct Hds as [|i d items ds Hi Hrest]; [exact E|].
    injection Hout as Hout. unfold all_pending in Hout. simpl in Hout.
    symmetry in Hout. apply app_eq_nil in Hout as [Hd _].
    now apply pending_not_nil in Hd.
  - intros ->. exists 1%nat. reflexivity.
Qed.

Lemma Parse_empty_iff_witness : Parse_returns "" (mk_slice []) None.
Proof. apply (proj2 (Parse_empty_iff "")). reflexivity. Defined.

Section ComposeFacts.

Import Strings.

Lemma str_app_assoc (a b c : string) : (a ++ b) ++ c = a ++ b ++ c.
Proof.
  induction a as [|x a IH]; simpl; [reflexivity | now rewrite IH].
Qed.

Lemma Join_app (l1 l2 : list string) (sep : string) :
  l1 <> [] -> l2 <> [] ->
  Join (l1 ++ l2) sep = Join l1 sep ++ sep ++ Join l2 sep.
Proof.
  intros H1 H2. induction l1 as [|a l1 IH]; [contradiction|].
  destruct l1 as [|b l1].
  - destruct l2 as [|c l2]; [contradiction|reflexivity].
  - change (Join ((a :: b :: l1) ++ l2) sep)
      with (a ++ sep ++ Join ((b :: l1) ++ l2) sep).
    rewrite IH by discriminate.
    change (Join (a :: b :: l1) sep) with (a ++ sep ++ Join (b :: l1) sep).
    now rewrite !str_app_assoc.
Qed.

Lemma spec_text_app (i1 i2 : list item) :
  i1 <> [] -> i2 <> [] ->
  spec_text (i1 ++ i2) = spec_text i1 ++ "," ++ spec_text i2.
Proof.
  intros H1 H2. unfold spec_text. rewrite map_app.
  apply Join_app; intros E; apply map_eq_nil in E; contradiction.
Qed.

Lemma Split_comma_app (s1 s2 : string) :
  Split (s1 ++ "," ++ s2) "," = (Split s1 "," ++ Split s2 ",")%list.
Proof. exact (Split_app_char ","%char s1 s2). Qed.

Lemma app_not_empty (s1 s2 : string) : s1 <> "" -> s1 ++ s2 <> "".
Proof. destruct s1; [contradiction|discriminate]. Qed.

Lemma parsed_items_ok (l : list string) (ds : list seq) :
  Forall2 (fun t d => parse_item t = (d, None)) l ds ->
  Forall (fun t => snd (parse_item t) = None) l.
Proof.
  induction 1 as [|t d l ds Ht _ IH]; constructor; [now rewrite Ht|assumption].
Qed.

End ComposeFacts.

(** X3. Specifications compose: when two specifications other than the
    empty one are both valid, [Parse] of the two joined by a comma returns
    the sequence of the first followed by the sequence of the second. *)
Theorem Parse_concat (s1 s2 : string) (out1 out2 : list Z) :
  s1 <> "" -> s2 <> "" ->
  Parse_returns s1 (mk_slice out1) None ->
  Parse_returns s2 (mk_slice out2) None ->
  Parse_returns (s1 ++ "," ++ s2) (mk_slice (out1 ++ out2)) None.
Proof.
  intros H1 H2 HP1 HP2.
  destruct (Parse_returns_ready _ _ HP1) as (i1 & d1 & E1 & Hd1 & _ & O1).
  destruct (Parse_returns_ready _ _ HP2) as (i2 & d2 & E2 & Hd2 & _ & O2).
  injection O1 as ->. injection O2 as ->. subst s1 s2.
  assert (N1 : i1 <> []) by (intros ->; now apply H1).
  assert (N2 : i2 <> []) by (intros ->; now apply H2).
  rewrite <- spec_text_app by assumption.
  rewrite <- all_pending_app. apply Parse_returns_items.
  now apply Forall2_app.
Qed.

Lemma Parse_concat_witness :
  Parse_returns ("1...3,7" ++ "," ++ "5...3,9")
                (mk_slice ([1; 2; 3; 7] ++ [5; 4; 3; 9])) None.
Proof.
  apply Parse_concat; try discriminate; exists 6%nat; reflexivity.
Defined.

(** X4. The first error wins: the error of an invalid specification is
    also the error of that specification followed by a comma and any
    text; and a valid specification followed by a comma and an invalid one
    has the error of the second (neither being the empty specification). *)
Theorem first_error_wins (s1 s2 : string) (e : error) :
  s1 <> "" ->
  (err (NewIterator s1) = Some e ->
   NewIterator (s1 ++ "," ++ s2) = mkIterator nil_slice (Some e)) /\
  (err (NewIterator s1) = None -> s2 <> "" ->
   err (NewIterator s2) = Some e ->
   NewIterator (s1 ++ "," ++ s2) = mkIterator nil_slice (Some e)).
Proof.
  intros H1.
  assert (Hne : s1 ++ "," ++ s2 <> "") by now apply app_not_empty.
  pose proof (Split_comma_app s1 s2) as HS.
  destruct (NewIterator_split_cases s1 H1)
    as [(d1 & Hd1 & N1)|(pre & bad & post & e1 & S1 & Hpre & Hbad & N1)];
    rewrite N1; cbn [err]; (split; [intros E|intros E0 H2 E]);
    try discriminate.
  - destruct (NewIterator_split_cases s2 H2)
      as [(d2 & Hd2 & N2)|(pre & bad & post & e2 & S2 & Hpre & Hbad & N2)];
      rewrite N2 in E; cbn [err] in E; [discriminate|].
    injection E as <-.
    apply (NewIterator_invalid _ (Strings.Split s1 "," ++ pre) post bad); auto.
    + now rewrite HS, S2, app_assoc.
    + apply Forall_app. split; [now apply (parsed_items_ok _ d1)|assumption].
  - injection E as <-.
    apply (NewIterator_invalid _ pre (post ++ Strings.Split s2 ",") bad); auto.
    now rewrite HS, S1, <- app_assoc.
Qed.

Lemma first_error_wins_witness :
  NewIterator ("3.5,12" ++ "," ++ "7,,x")
  = mkIterator nil_slice (Some (ErrNum (Strconv.syntaxError "Atoi" "3.5"))) /\
  NewIterator ("6...9" ++ "," ++ "1,2...")
  = mkIterator nil_slice (Some (ErrNum (Strconv.syntaxError "Atoi" ""))).
Proof.
  split.
  - apply (proj1 (first_error_wins "3.5,12" "7,,x" _ ltac:(discriminate))).
    reflexivity.
  - apply (proj2 (first_error_wins "6...9" "1,2..." _ ltac:(discriminate)));
      [reflexivity|discriminate|reflexivity].
Defined.

Section RunFacts.

Lemma run_up_last (a b : Z) : a < b -> run a b = (run a (b - 1) ++ [b])%list.
Proof.
  intros H. unfold run.
  replace (a <=? b) with true by (symmetry; apply Z.leb_le; lia).
  replace (a <=? b - 1) with true by (symmetry; apply Z.leb_le; lia).
  replace (Z.to_nat (b - a + 1)) with (S (Z.to_nat (b - 1 - a + 1))) by lia.
  rewrite seq_S, map_app. simpl. do 2 f_equal. lia.
Qed.

Lemma run_down_last (a b : Z) : b < a -> run a b = (run a (b + 1) ++ [b])%list.
Proof.
  intros H. unfold run.
  replace (a <=? b) with false by (symmetry; apply Z.leb_gt; lia).
  replace (Z.to_nat (a - b + 1)) with (S (Z.to_nat (a - (b + 1) + 1))) by lia.
  rewrite seq_S, map_app.
  destruct (Z.eq_dec a (b + 1)) as [->|E].
  - rewrite Z.leb_refl. replace (b + 1 - (b + 1) + 1) with 1 by lia.
    simpl. do 2 f_equal; lia.
  - replace (a <=? b + 1) with false by (symmetry; apply Z.leb_gt; lia).
    simpl. do 2 f_equal. lia.
Qed.

(** A run read backwards is the run between the same ends taken the
    other way. *)
Lemma run_rev (a b : Z) : rev (run a b) = run b a.
Proof.
  remember (Z.to_nat (Z.abs (b - a))) as n eqn:En.
  revert a b En. induction n as [|n IH]; intros a b En.
  - assert (a = b) by lia. subst b. now rewrite run_same.
  - destruct (Z.lt_trichotomy a b) as [Hlt|[Heq|Hgt]]; [|lia|].
    + rewrite (run_up a b Hlt). simpl. rewrite IH by lia.
      symmetry. now apply run_down_last.
    + rewrite (run_down a b Hgt). simpl. rewrite IH by lia.
      symmetry. now apply run_up_last.
Qed.

Lemma In_run (a b v : Z) : In v (run a b) <-> Z.min a b <= v <= Z.max a b.
Proof.
  unfold run. destruct (Z.leb_spec a b); rewrite in_map_iff; split.
  - intros (k & <- & Hk). apply in_seq in Hk. lia.
  - intros Hv. exists (Z.to_nat (v - a)). split; [lia|]. apply in_seq. lia.
  - intros (k & <- & Hk). apply in_seq in Hk. lia.
  - intros Hv. exists (Z.to_nat (a - v)). split; [lia|]. apply in_seq. lia.
Qed.

Lemma NoDup_map_inj (A B : Type) (f : A -> B) (l : list A) :
  (forall x y, f x = f y -> x = y) -> NoDup l -> NoDup (map f l).
Proof.
  intros Hinj. induction 1 as [|x l Hx _ IH]; simpl; constructor; [|exact IH].
  rewrite in_map_iff. intros (y & E & Hy). apply Hinj in E. now subst y.
Qed.

Lemma NoDup_run (a b : Z) : NoDup (run a b).
Proof.
  unfold run. destruct (a <=? b);
    (apply NoDup_map_inj; [|apply seq_NoDup]);
    intros x y Hxy; lia.
Qed.

Lemma Parse_range (p q : string) (a b : Z) :
  int_text p a -> int_text q b ->
  Parse_returns (p ++ "..." ++ q) (mk_slice (run a b)) None.
Proof.
  intros Hp Hq.
  pose proof (Parse_returns_items [Range p q]
                [mkSeq a b (if a <? b then 1 else -1)]) as H.
  unfold all_pending, pending in H. simpl in H. rewrite app_nil_r in H.
  apply H. constructor; [now constructor|constructor].
Qed.

End RunFacts.

(** X5. Swapping the two ends of a range reverses what it stands for:
    [Parse] of [q...p] returns the sequence of [p...q] read backwards. *)
Theorem range_reversed (p q : string) (a b : Z) :
  int_text p a -> int_text q b ->
  exists out : list Z,
    Parse_returns (p ++ "..." ++ q) (mk_slice out) None /\
    Parse_returns (q ++ "..." ++ p) (mk_slice (rev out)) None.
Proof.
  intros Hp Hq. exists (run a b). split; [now apply Parse_range|].
  rewrite run_rev. now apply Parse_range.
Qed.

Lemma range_reversed_witness :
  exists out : list Z,
    Parse_returns ("-2" ++ "..." ++ "3") (mk_slice out) None /\
    Parse_returns ("3" ++ "..." ++ "-2") (mk_slice (rev out)) None.
Proof.
  apply (range_reversed "-2" "3" (-2) 3); split;
    (reflexivity || (unfold in_int, minInt, maxInt, intSize; simpl; lia)).
Defined.

(** X6. A range stands for each integer between its two ends, both
    included, exactly once, and for nothing else: [Parse] of [p...q]
    returns a sequence without repetition whose members are the integers
    from the smaller end to the larger one. *)
Theorem range_members (p q : string) (a b : Z) :
  int_text p a -> int_text q b ->
  exists out : list Z,
    Parse_returns (p ++ "..." ++ q) (mk_slice out) None /\
    NoDup out /\
    forall v : Z, In v out <-> Z.min a b <= v <= Z.max a b.
Proof.
  intros Hp Hq. exists (run a b).
  split; [now apply Parse_range|].
  split; [apply NoDup_run|intros v; apply In_run].
Qed.

Lemma range_members_witness :
  exists out : list Z,
    Parse_returns ("12" ++ "..." ++ "8") (mk_slice out) None /\
    NoDup out /\
    forall v : Z, In v out <-> Z.min 12 8 <= v <= Z.max 12 8.
Proof.
  apply (range_members "12" "8" 12 8).
  - split; [reflexivity|]. unfold in_int, minInt, maxInt, intSize. simpl. lia.
  - split; [reflexivity|]. unfold in_int, minInt, maxInt, intSize. simpl. lia.
Defined.

Section AlphabetFacts.

Lemma all_chars_app (f : ascii -> bool) (a b : string) :
  all_chars f (a ++ b) = all_chars f a && all_chars f b.
Proof.
  induction a as [|c a IH]; simpl; [reflexivity|].
  now rewrite IH, andb_assoc.
Qed.

Lemma digits_spec_chars (s : string) :
  all_digits s = true -> all_chars spec_char s = true.
Proof.
  induction s as [|c s IH]; cbn [all_chars all_digits]; [reflexivity|].
  intros H. apply andb_true_iff in H as [Hc Hs].
  rewrite (IH Hs). unfold spec_char. now rewrite Hc.
Qed.

Lemma literal_spec_chars (s : string) (v : Z) :
  literal s = Some v -> all_chars spec_char s = true.
Proof.
  destruct s as [|c s]; [discriminate|].
  rewrite literal_cons. cbv zeta. destruct (Strconv.is_sign c) eqn:Hc.
  - destruct s as [|x s]; [discriminate|].
    destruct (all_digits (String x s)) eqn:Hall; [|discriminate].
    intros _. change (all_chars spec_char (String c (String x s)))
      with (spec_char c && all_chars spec_char (String x s)).
    rewrite (digits_spec_chars _ Hall). unfold spec_char.
    now rewrite Hc, orb_true_r.
  - destruct (all_digits (String c s)) eqn:Hall; [|discriminate].
    intros _. now apply digits_spec_chars.
Qed.

Lemma item_spec_chars (i : item) (d : seq) :
  item_seq i d -> all_chars spec_char (item_text i) = true.
Proof.
  intros [p v [Hp _]|p q a b [Hp _] [Hq _]]; unfold item_text.
  - now apply (literal_spec_chars p v).
  - rewrite !all_chars_app.
    now rewrite (literal_spec_chars p a), (literal_spec_chars q b).
Qed.

Lemma Join_spec_chars (l : list string) :
  Forall (fun t => all_chars spec_char t = true) l ->
  all_chars spec_char (Join l ",") = true.
Proof.
  induction 1 as [|a l Ha Hl IH]; [reflexivity|].
  destruct l as [|b l]; [exact Ha|].
  change (Join (a :: b :: l) ",") with (a ++ "," ++ Join (b :: l) ",").
  now rewrite !all_chars_app, Ha, IH.
Qed.

End AlphabetFacts.

(** X7. A valid specification is written with digits, signs, commas and
    dots only: the constructor accepts no specification that holds any
    other character (a space, a letter, an underscore). *)
Theorem valid_spec_alphabet (spec : string) :
  err (NewIterator spec) = None -> all_chars spec_char spec = true.
Proof.
  intros Herr.
  destruct (NewIterator_cases spec) as [(items & ds & -> & Hds & _)|[ne HN]];
    [|rewrite HN in Herr; discriminate].
  unfold spec_text. apply Join_spec_chars.
  clear Herr. induction Hds as [|i d items ds Hi _ IH]; simpl; constructor;
    [now apply (item_spec_chars i d)|assumption].
Qed.

Lemma valid_spec_alphabet_witness :
  all_chars spec_char "1,2,21,50...54,-57...+61" = true.
Proof. apply valid_spec_alphabet. reflexivity. Defined.

Section LazyFacts.

Lemma Next_calls_stuck (n : nat) (it : Iterator) (e : error) :
  err it = Some e -> Next_calls n it = (repeat (fst (Next it)) n, it).
Proof.
  intros H. induction n as [|n IH]; [reflexivity|].
  rewrite Next_calls_S. pose proof (Next_stuck it e H) as Hs.
  destruct (Next it) as [o it'] eqn:HN. simpl in Hs. subst it'.
  rewrite IH. reflexivity.
Qed.

(** One call on a ready iterator whose descriptors are in order: it
    returns the first pending integer and leaves the others pending. *)
Lemma Next_pending (it : Iterator) (v : Z) (rest : list Z) :
  err it = None -> Forall seq_ok (elems (seqs it)) ->
  all_pending (elems (seqs it)) = v :: rest ->
  fst (Next it) = Returns (v, None) /\
  err (snd (Next it)) = None /\
  all_pending (elems (seqs (snd (Next it)))) = rest.
Proof.
  intros He Hok Hp.
  destruct (elems (seqs it)) as [|d ds] eqn:Hs; [discriminate|].
  inversion Hok as [|? ? Hd Hds]; subst.
  destruct (Next_seqs it d ds He Hs) as [Hval Hnext].
  unfold all_pending in *. simpl in Hp. unfold pending at 1 in Hp.
  assert (Herr : err (snd (Next it)) = None).
  { unfold Next. rewrite He, Hs. now destruct (next d =? last d). }
  rewrite Hval, Hnext. destruct (Z.eqb_spec (next d) (last d)) as [E|Hne].
  - rewrite E, run_same in Hp. injection Hp as <- <-. rewrite E. auto.
  - destruct (seq_ok_advance d Hd Hne) as (-> & _ & _).
    destruct Hd as (_ & _ & Hdir).
    assert (Hrun : run (next d) (last d)
                   = next d :: run (next d + step d) (last d)).
    { destruct Hdir as [[-> Hle]|[[-> Hle]|[_ Heq]]]; [| |contradiction].
      - apply run_up. lia.
      - apply run_down. lia. }
    rewrite Hrun in Hp. injection Hp as <- <-. auto.
Qed.

Lemma Next_calls_prefix (k : nat) :
  forall (it : Iterator) (vals : list Z),
    err it = None -> Forall seq_ok (elems (seqs it)) ->
    all_pending (elems (seqs it)) = vals ->
    (k <= List.length vals)%nat ->
    fst (Next_calls k it) = values (firstn k vals) /\
    err (snd (Next_calls k it)) = None /\
    Forall seq_ok (elems (seqs (snd (Next_calls k it)))) /\
    all_pending (elems (seqs (snd (Next_calls k it)))) = skipn k vals.
Proof.
  induction k as [|k IH]; intros it vals He Hok Hp Hk.
  - simpl. auto.
  - destruct vals as [|v rest]; [simpl in Hk; lia|].
    destruct (Next_pending it v rest He Hok Hp) as (Hv & He' & Hp').
    pose proof (Next_keeps_ok it Hok) as Hok'.
    rewrite Next_calls_S. destruct (Next it) as [o it'] eqn:HN.
    simpl in Hv, He', Hp', Hok'. subst o.
    destruct (IH it' rest He' Hok' Hp' ltac:(simpl in Hk; lia))
      as (H1 & H2 & H3 & H4).
    destruct (Next_calls k it') as [os it''].
    simpl in *. subst os. auto.
Qed.

End LazyFacts.

(** X8. The iterator is lazy and keeps its place: on a valid
    specification the first [k] calls of [Next] return the first [k]
    integers of the sequence [Parse] returns, the iterator is still ready,
    and what it has pending is the rest of that sequence; after more
    calls than the sequence has integers the iterator is done. *)
Theorem Next_calls_follow_Parse (spec : string) (out : list Z) (k : nat) :
  Parse_returns spec (mk_slice out) None ->
  ((k <= List.length out)%nat ->
   fst (Next_calls k (NewIterator spec)) = values (firstn k out) /\
   err (snd (Next_calls k (NewIterator spec))) = None /\
   all_pending (elems (seqs (snd (Next_calls k (NewIterator spec)))))
   = skipn k out) /\
  ((List.length out < k)%nat ->
   err (snd (Next_calls k (NewIterator spec))) = Some ErrDone).
Proof.
  intros HP.
  destruct (Parse_returns_ready _ _ HP) as (items & ds & _ & Hds & HN & E).
  injection E as ->. pose proof (items_seq_ok _ _ Hds) as Hok.
  rewrite HN. split; intros Hk.
  - destruct (Next_calls_prefix k (mkIterator (mk_slice ds) None)
                (all_pending ds) eq_refl Hok eq_refl Hk) as (H1 & H2 & _ & H4).
    auto.
  - replace k with (List.length (all_pending ds) + (1 + (k - S (List.length (all_pending ds)))))%nat
      by lia.
    rewrite Next_calls_add, (Next_calls_all ds Hok).
    rewrite Next_calls_add. cbn [Next_calls]. rewrite Next_done by reflexivity.
    rewrite (Next_calls_stuck _ _ ErrDone) by reflexivity. reflexivity.
Qed.

Lemma Next_calls_follow_Parse_witness :
  (fst (Next_calls 3 (NewIterator "4,12...8,-3"))
   = values (firstn 3 [4; 12; 11; 10; 9; 8; -3]) /\
   err (snd (Next_calls 3 (NewIterator "4,12...8,-3"))) = None /\
   all_pending (elems (seqs (snd (Next_calls 3 (NewIterator "4,12...8,-3")))))
   = skipn 3 [4; 12; 11; 10; 9; 8; -3]) /\
  err (snd (Next_calls 9 (NewIterator "4,12...8,-3"))) = Some ErrDone.
Proof.
  assert (HP : Parse_returns "4,12...8,-3"
                 (mk_slice [4; 12; 11; 10; 9; 8; -3]) None)
    by (exists 8%nat; reflexivity).
  split.
  - apply (proj1 (Next_calls_follow_Parse _ _ 3%nat HP)). simpl. lia.
  - apply (proj2 (Next_calls_follow_Parse _ _ 9%nat HP)). simpl. lia.
Defined.

(** X9. Ranges are not expanded by the constructor: a valid
    specification other than the empty one gives exactly one descriptor
    for each of its comma-separated items, however many integers the
    items stand for. *)
Theorem one_descriptor_per_item (spec : string) :
  spec <> "" -> err (NewIterator spec) = None ->
  len (seqs (NewIterator spec)) = List.length (Strings.Split spec ",").
Proof.
  intros Hne Herr.
  destruct (NewIterator_split_cases spec Hne)
    as [(ds & Hds & HN)|(pre & bad & post & e & _ & _ & _ & HN)];
    rewrite HN in *; [|discriminate].
  unfold len. simpl. symmetry. exact (Forall2_length Hds).
Qed.

Lemma one_descriptor_per_item_witness :
  len (seqs (NewIterator "-9223372036854775808...9223372036854775807,0"))
  = List.length
      (Strings.Split "-9223372036854775808...9223372036854775807,0" ",").
Proof.
  apply one_descriptor_per_item; [discriminate|reflexivity].
Defined.

(** X10. The addition [item.next += item.step] never overflows: in any
    iterator reached from the constructor by calls of [Next], the
    descriptor at the front has [next] and [last] within [int], and when
    it is not exhausted [next + step] is within [int] as well, so that
    the wrap-around of the addition changes nothing. *)
Theorem step_never_overflows
        (spec : string) (n : nat) (d : seq) (rest : list seq) :
  elems (seqs (snd (Next_calls n (NewIterator spec)))) = d :: rest ->
  in_int (next d) /\ in_int (last d) /\
  (next d <> last d ->
   in_int (next d + step d) /\
   wrap_int (next d + step d) = next d + step d).
Proof.
  intros Hs.
  pose proof (Next_calls_keep_ok n _ (NewIterator_ok spec)) as H.
  rewrite Hs in H. inversion H as [|? ? Hd _]; subst.
  split; [apply Hd|]. split; [apply Hd|]. intros Hne.
  destruct (seq_ok_advance d Hd Hne) as (Hw & (Hin & _) & _).
  split; [exact Hin|exact Hw].
Qed.

Lemma step_never_overflows_witness :
  in_int 9223372036854775806 /\ in_int 9223372036854775807 /\
  (9223372036854775806 <> 9223372036854775807 ->
   in_int (9223372036854775806 + 1) /\
   wrap_int (9223372036854775806 + 1) = 9223372036854775806 + 1).
Proof.
  apply (step_never_overflows "9223372036854775806...9223372036854775807"
           0%nat (mkSeq 9223372036854775806 9223372036854775807 1) []).
  reflexivity.
Defined.

(** X11. [Parse] never panics: whatever the specification and however
    long its loop is let run, it has either not finished yet or returned;
    the two panics of [Next] are out of its reach. *)
Theorem Parse_never_panics (spec : string) (fuel : nat) :
  Parse_fuel fuel spec = None \/
  exists out e, Parse_fuel fuel spec = Some (Returns (out, e)).
Proof.
  destruct (Parse_fuel fuel spec) as [r|] eqn:E; [right|now left].
  destruct (Parse_total spec) as (out & e & HP).
  exists out, e. f_equal.
  apply (Parse_ends_fun spec); [now exists fuel|exact HP].
Qed.

Section CommaFacts.

Import Strings.

Lemma Split_leading_comma (s : string) :
  Split ("," ++ s) "," = "" :: Split s ",".
Proof. exact (Split_cons_sep ","%char s). Qed.

Lemma Split_trailing_comma (s : string) :
  Split (s ++ ",") "," = (Split s "," ++ [""])%list.
Proof. exact (Split_app_char ","%char s ""). Qed.

End CommaFacts.

(** X12. A comma at either end of a specification makes it invalid: a
    specification that begins with a comma records the syntax error of the
    empty item, whatever follows; one that ends with a comma is invalid,
    and records that same error when the text before the comma is
    valid. *)
Theorem comma_at_either_end (s : string) :
  NewIterator ("," ++ s)
  = mkIterator nil_slice (Some (ErrNum (Strconv.syntaxError "Atoi" ""))) /\
  exists ne,
    NewIterator (s ++ ",") = mkIterator nil_slice (Some (ErrNum ne)) /\
    (err (NewIterator s) = None -> ne = Strconv.syntaxError "Atoi" "").
Proof.
  split.
  - apply (NewIterator_invalid _ [] (Strings.Split s ",") "");
      [discriminate|apply Split_leading_comma|constructor|reflexivity].
  - destruct (string_dec s "") as [->|Hne].
    + exists (Strconv.syntaxError "Atoi" ""). split; [reflexivity|trivial].
    + assert (Hne' : s ++ "," <> "") by (destruct s; [contradiction|discriminate]).
      destruct (NewIterator_split_cases s Hne)
        as [(ds & Hds & HN)|(pre & bad & post & e & HS & Hpre & Hbad & HN)].
      * exists (Strconv.syntaxError "Atoi" ""). split; [|trivial].
        apply (NewIterator_invalid _ (Strings.Split s ",") [] "");
          [assumption|apply Split_trailing_comma
          |now apply (parsed_items_ok _ ds)|reflexivity].
      * destruct (parse_item_error _ _ Hbad) as [ne ->].
        exists ne. split; [|rewrite HN; discriminate].
        apply (NewIterator_invalid _ pre (post ++ [""]) bad); auto.
        now rewrite Split_trailing_comma, HS, <- app_assoc.
Qed.

Lemma comma_at_either_end_witness :
  exists ne,
    NewIterator ("1...3,7" ++ ",") = mkIterator nil_slice (Some (ErrNum ne)) /\
    (err (NewIterator "1...3,7") = None -> ne = Strconv.syntaxError "Atoi" "").
Proof. exact (proj2 (comma_at_either_end "1...3,7")). Defined.

Section SeparatorFacts.

Import Strings.

Lemma cut_skip_free (c : ascii) (sep' a r : string) :
  free_of c a = true ->
  cut (a ++ r) (String c sep') =
  match cut r (String c sep') with
  | Some (x, y) => Some (a ++ x, y)
  | None => None
  end.
Proof.
  intros Hfree. induction a as [|x a IH].
  - simpl. now destruct (cut r (String c sep')) as [[u w]|].
  - simpl in Hfree. apply andb_true_iff in Hfree as [Hx Hfree].
    change (String x a ++ r) with (String x (a ++ r)). rewrite cut_eq.
    assert (Hp : HasPrefix (String x (a ++ r)) (String c sep') = false).
    { simpl. rewrite Ascii.eqb_sym. now destruct (Ascii.eqb x c). }
    rewrite Hp, (IH Hfree).
    now destruct (cut r (String c sep')) as [[u w]|].
Qed.

(** After one or two dots a text free of dots holds no range separator. *)
Lemma cut_dots (q : string) :
  q <> "" -> free_of "." q = true ->
  cut ("." ++ q) "..." = None /\ cut (".." ++ q) "..." = None.
Proof.
  intros Hne Hfree. destruct q as [|y q]; [contradiction|].
  pose proof (cut_none "."%char ".." _ Hfree) as Hq.
  simpl in Hfree. apply andb_true_iff in Hfree as [Hy _].
  assert (Hy' : Ascii.eqb "." y = false).
  { rewrite Ascii.eqb_sym. now destruct (Ascii.eqb y "."). }
  assert (H1 : cut ("." ++ String y q) "..." = None).
  { change ("." ++ String y q) with (String "." (String y q)).
    rewrite cut_eq.
    replace (HasPrefix (String "." (String y q)) "...") with false
      by (cbn [HasPrefix]; rewrite Hy', ?Ascii.eqb_refl; reflexivity).
    now rewrite Hq. }
  split; [exact H1|].
  change (".." ++ String y q) with (String "." ("." ++ String y q)).
  rewrite cut_eq.
  replace (HasPrefix (String "." ("." ++ String y q)) "...") with false
    by (cbn [HasPrefix String.append]; rewrite Hy', ?Ascii.eqb_refl; reflexivity).
  now rewrite H1.
Qed.

Lemma literal_no_dot (p : string) (v : Z) :
  literal p = Some v -> p <> "" /\ free_of "." p = true.
Proof.
  intros H. split; [now apply literal_not_empty in H|].
  now apply (literal_free "."%char p v).
Qed.

Lemma all_digits_app (a b : string) :
  all_digits (a ++ b) = all_digits a && all_digits b.
Proof.
  induction a as [|c a IH]; simpl; [reflexivity|].
  now rewrite IH, andb_assoc.
Qed.

Lemma digit_prefix_app (a : string) (c : ascii) (r : string) :
  all_digits a = true -> is_digit c = false ->
  digit_prefix (a ++ String c r) = a.
Proof.
  intros Ha Hc. induction a as [|x a IH]; simpl.
  - now rewrite Hc.
  - simpl in Ha. apply andb_true_iff in Ha as [Hx Ha].
    now rewrite Hx, IH.
Qed.

Lemma unsigned_part_app (p r : string) :
  p <> "" -> unsigned_part (p ++ r) = unsigned_part p ++ r.
Proof.
  destruct p as [|c p]; [contradiction|]. intros _. simpl.
  now destruct (Strconv.is_sign c).
Qed.

(** The digits of a literal are those of its value. *)
Lemma literal_body (p : string) (v : Z) :
  literal p = Some v ->
  unsigned_part p <> "" /\ all_digits (unsigned_part p) = true /\
  Z.abs v = digits_value (unsigned_part p).
Proof.
  unfold literal. destruct (unsigned_part p) as [|x body] eqn:E; [discriminate|].
  destruct (all_digits (String x body)) eqn:Hall; [|discriminate].
  pose proof (digits_value_bounds _ Hall) as [Hpos _].
  remember (digits_value (String x body)) as dv eqn:Edv. clear Edv.
  intros [= <-]. split; [discriminate|]. split; [reflexivity|].
  destruct (negative p); lia.
Qed.

(** A literal that fits [int] followed by a character that is no digit
    and by anything else is a syntax error. *)
Lemma fault_after_literal (p : string) (a : Z) (c : ascii) (r : string) :
  int_text p a -> is_digit c = false ->
  literal_fault (p ++ String c r) = Some Strconv.ErrSyntax.
Proof.
  intros [Hp Ha] Hc.
  destruct (literal_body p a Hp) as (Hne & Hall & Habs).
  assert (Hp' : p <> "") by now apply literal_not_empty in Hp.
  unfold literal_fault, literal. rewrite (unsigned_part_app p _ Hp').
  destruct (unsigned_part p ++ String c r) as [|x body] eqn:E.
  - destruct (unsigned_part p); discriminate.
  - rewrite <- E, all_digits_app. simpl all_digits. rewrite Hc.
    rewrite andb_false_r, (digit_prefix_app _ c r Hall Hc), <- Habs.
    unfold in_int, minInt, maxInt, intSize in Ha. simpl in Ha.
    change (2 ^ 64) with 18446744073709551616.
    replace (18446744073709551616 <=? Z.abs a) with false
      by (symmetry; apply Z.leb_gt; lia).
    reflexivity.
Qed.

Lemma int_text_no_fault (p : string) (a : Z) :
  int_text p a -> piece_error p = None.
Proof.
  intros H. apply Atoi_ok in H.
  rewrite <- piece_error_Atoi, H. reflexivity.
Qed.

(** A specification without a comma is its only item. *)
Lemma NewIterator_one_item (t : string) (e : error) :
  t <> "" -> free_of "," t = true ->
  snd (parse_item t) = Some e ->
  NewIterator t = mkIterator nil_slice (Some e).
Proof.
  intros Hne Hfree He.
  apply (NewIterator_invalid t [] [] t); auto.
  apply Split_cut_None. now apply cut_none.
Qed.

End SeparatorFacts.

(** X13. Only three dots between two integers make a range.  With [p]
    and [q] two integers: [p..q] (two dots, as in the example of the
    comment of [Parse]) is a syntax error of [Atoi] on the whole item;
    [p...] and [...q], where an end is missing, are the syntax error of
    the empty integer; and [p....q] (four dots) is a syntax error on
    [.q]. *)
Theorem malformed_ranges (p q : string) (a b : Z) :
  int_text p a -> int_text q b ->
  NewIterator (p ++ ".." ++ q)
  = mkIterator nil_slice
      (Some (ErrNum (Strconv.syntaxError "Atoi" (p ++ ".." ++ q)))) /\
  NewIterator (p ++ "...")
  = mkIterator nil_slice (Some (ErrNum (Strconv.syntaxError "Atoi" ""))) /\
  NewIterator ("..." ++ q)
  = mkIterator nil_slice (Some (ErrNum (Strconv.syntaxError "Atoi" ""))) /\
  NewIterator (p ++ "...." ++ q)
  = mkIterator nil_slice (Some (ErrNum (Strconv.syntaxError "Atoi" ("." ++ q)))).
Proof.
  intros Hp Hq.
  destruct (literal_no_dot p a (proj1 Hp)) as [Np Dp].
  destruct (literal_no_dot q b (proj1 Hq)) as [Nq Dq].
  pose proof (literal_free ","%char p a eq_refl eq_refl (proj1 Hp)) as Cp.
  pose proof (literal_free ","%char q b eq_refl eq_refl (proj1 Hq)) as Cq.
  destruct (cut_dots q Nq Dq) as [Hc1 Hc2].
  pose proof (int_text_no_fault p a Hp) as Fp.
  repeat split; apply NewIterator_one_item;
    try (destruct p; [contradiction|discriminate]);
    try discriminate;
    try (rewrite ?free_of_app, ?Cp, ?Cq; reflexivity);
    rewrite parse_item_fault; unfold item_error.
  - rewrite (Split_cut_None (p ++ ".." ++ q) "...").
    + unfold piece_error.
      change (p ++ ".." ++ q) with (p ++ String "." ("." ++ q)).
      now rewrite (fault_after_literal p a "."%char _ Hp eq_refl).
    + now rewrite (cut_skip_free "."%char ".." p _ Dp), Hc2.
  - change (p ++ "...") with (Join [p; ""] "...").
    rewrite (Split_Join "."%char ".." [p; ""]).
    + now rewrite Fp.
    + discriminate.
    + now repeat constructor.
  - change ("..." ++ q) with (Join [""; q] "...").
    rewrite (Split_Join "."%char ".." [""; q]).
    + reflexivity.
    + discriminate.
    + now repeat constructor.
  - rewrite (Split_cut_Some (p ++ "...." ++ q) "..." p ("." ++ q));
      [|discriminate|exact (cut_free "."%char ".." p ("." ++ q) Dp)].
    rewrite (Split_cut_None ("." ++ q) "..." Hc1).
    rewrite Fp. reflexivity.
Qed.

Lemma malformed_ranges_witness :
  NewIterator ("61" ++ ".." ++ "57")
  = mkIterator nil_slice
      (Some (ErrNum (Strconv.syntaxError "Atoi" ("61" ++ ".." ++ "57")))).
Proof.
  apply (malformed_ranges "61" "57" 61 57); split;
    (reflexivity || (unfold in_int, minInt, maxInt, intSize; simpl; lia)).
Defined.

Section PhaseFacts.

Lemma do_call_holds_none (it : Iterator) (c : call) :
  (forall e, err it = Some e -> elems (seqs it) = []) ->
  forall e, err (do_call it c) = Some e -> elems (seqs (do_call it c)) = [].
Proof.
  intros H. destruct c; [|exact H].
  unfold do_call. destruct (err it) as [e0|] eqn:He.
  - rewrite (Next_stuck it e0 He). intros e _. exact (H e0 eq_refl).
  - unfold Next. rewrite He.
    destruct (elems (seqs it)) as [|d rest] eqn:Hs.
    + intros e _. exact Hs.
    + destruct (next d =? last d); simpl; discriminate.
Qed.

Lemma do_call_invalid (it : Iterator) (c : call) :
  phase_of (do_call it c) = Invalid <-> phase_of it = Invalid.
Proof.
  destruct c; [|reflexivity].
  unfold do_call. destruct (err it) as [e0|] eqn:He.
  - now rewrite (Next_stuck it e0 He).
  - unfold phase_of at 2. rewrite He. unfold phase_of.
    destruct (Next_ready it He) as [-> | ->]; split; discriminate.
Qed.

Lemma do_calls_phases (cs : list call) :
  forall it : Iterator,
    (forall e, err it = Some e -> elems (seqs it) = []) ->
    (phase_of (do_calls cs it) = Invalid <-> phase_of it = Invalid) /\
    (forall e, err (do_calls cs it) = Some e ->
               elems (seqs (do_calls cs it)) = []).
Proof.
  induction cs as [|c cs IH]; intros it H.
  - split; [reflexivity|exact H].
  - change (do_calls (c :: cs) it) with (do_calls cs (do_call it c)).
    destruct (IH (do_call it c) (do_call_holds_none it c H)) as [H1 H2].
    split; [|exact H2]. rewrite H1. apply do_call_invalid.
Qed.

End PhaseFacts.

(** X14. An iterator is invalid by construction or never: the
    constructor gives a ready or an invalid iterator (never a done one),
    no sequence of calls of [Next] and [Err] makes a valid iterator invalid
    or an invalid one valid, and an iterator whose error slot is set
    (invalid or done) holds no descriptor. *)
Theorem constructed_iterator_phases (spec : string) (cs : list call) :
  (phase_of (NewIterator spec) = Ready \/
   phase_of (NewIterator spec) = Invalid) /\
  (phase_of (do_calls cs (NewIterator spec)) = Invalid <->
   phase_of (NewIterator spec) = Invalid) /\
  (forall e : error,
      err (do_calls cs (NewIterator spec)) = Some e ->
      elems (seqs (do_calls cs (NewIterator spec))) = []).
Proof.
  assert (H0 : forall e, err (NewIterator spec) = Some e ->
                         elems (seqs (NewIterator spec)) = []).
  { destruct (NewIterator_cases spec) as [(items & ds & _ & _ & ->)|[ne ->]];
      [discriminate|reflexivity]. }
  split; [|exact (do_calls_phases cs _ H0)].
  destruct (NewIterator_cases spec) as [(items & ds & _ & _ & ->)|[ne ->]];
    [now left|now right].
Qed.

Lemma constructed_iterator_phases_witness :
  elems (seqs (do_calls [CallNext; CallErr; CallNext; CallNext; CallNext]
                 (NewIterator "7,8")))
  = [].
Proof.
  apply (proj2 (proj2 (constructed_iterator_phases "7,8"
           [CallNext; CallErr; CallNext; CallNext; CallNext])) ErrDone).
  reflexivity.
Defined.

(** X15. The specifications of one integer are exactly the literals that
    fit [int]: the constructor gives the ready iterator that holds the one
    descriptor of [v], with [next = last = v] and no direction, exactly
    when the specification is an optional sign followed by decimal digits
    whose value [v] is within the range of [int]. *)
Theorem single_integer_spec (p : string) (v : Z) :
  NewIterator p = mkIterator (mk_slice [mkSeq v v 0]) None <-> int_text p v.
Proof.
  split.
  - intros HN.
    destruct (NewIterator_cases p) as [(items & ds & E & Hds & HN')|[ne HN']];
      rewrite HN in HN'; [|discriminate].
    injection HN' as <-.
    inversion Hds as [|i d items' ds' Hi Hrest]; subst.
    inversion Hrest; subst.
    inversion Hi as [p' v' Hp'|p' q' a b Ha Hb]; subst.
    + exact Hp'.
    + match goal with
      | H : (if ?c then _ else _) = 0 |- _ => destruct c; discriminate H
      end.
  - intros H. apply (NewIterator_items [Single p]).
    repeat constructor; apply H.
Qed.

Lemma single_integer_spec_witness :
  NewIterator "-9223372036854775808"
  = mkIterator (mk_slice [mkSeq (-9223372036854775808) (-9223372036854775808) 0])
               None /\
  int_text "007" 7.
Proof.
  split.
  - apply (proj2 (single_integer_spec _ _)).
    split; [reflexivity|]. unfold in_int, minInt, maxInt, intSize. simpl. lia.
  - apply (proj1 (single_integer_spec _ _)). reflexivity.
Defined.

(** X16. An integer beyond the range of [int] is a range error, not a
    syntax error: for a literal whose value does not fit, the constructor
    records the error of [Atoi] of kind [ErrRange] that names the
    literal. *)
Theorem integer_out_of_range (p : string) (v : Z) :
  literal p = Some v -> (v < minInt \/ maxInt < v) ->
  NewIterator p
  = mkIterator nil_slice (Some (ErrNum (Strconv.mkNumError "Atoi" p Strconv.ErrRange))).
Proof.
  intros Hp Hv.
  assert (Hf : literal_fault p = Some Strconv.ErrRange).
  { unfold literal_fault. rewrite Hp.
    destruct Hv; cmp_lia; now rewrite ?andb_false_r. }
  apply NewIterator_one_item.
  - now apply literal_not_empty in Hp.
  - now apply (literal_free ","%char p v).
  - rewrite parse_item_fault. unfold item_error.
    rewrite (Split_literal p v Hp). unfold piece_error. now rewrite Hf.
Qed.

Lemma integer_out_of_range_witness :
  NewIterator "9223372036854775808"
  = mkIterator nil_slice
      (Some (ErrNum (Strconv.mkNumError "Atoi" "9223372036854775808"
                                        Strconv.ErrRange))).
Proof.
  apply (integer_out_of_range "9223372036854775808" 9223372036854775808).
  - reflexivity.
  - right. unfold maxInt, intSize. simpl. lia.
Defined.


